(** * Utils: retry, batchProcess, timeout, debounce, throttle

    A shallow embedding of the control-flow helpers of the [Utils] class
    (utilities module of the SDK examples) and the properties of them
    that the specification states.

    Conventions of the embedding.
    - Time is counted in whole time units (milliseconds), an [N] for
      the instants of the timer loop and a [Z] where the source computes
      with a [number] that may be negative ([maxRetries], [concurrency],
      the delay handed to [setTimeout]).
    - Awaiting a promise yields [Fulfilled v] or [Rejected e]; a
      [throw] inside an [async] function is the rejection of its promise.
    - A loop of the source that may fail to terminate is a [Fixpoint] on
      a fuel argument; running out of fuel is [None] and is never read as
      a result. *)

From stdpp Require gmap strings.
From Stdlib Require Import List NArith ZArith Lia Bool Arith String DecimalString.
Import ListNotations.

Set Implicit Arguments.

(** ** Promises *)

Inductive settled (E T : Type) : Type :=
| Fulfilled (v : T)
| Rejected (e : E).
Arguments Fulfilled {E T} v.
Arguments Rejected {E T} e.

(** A small universe of thrown values, used where a claim speaks of one
    error wrapping another, or of the kind of an error. *)
Inductive jsError : Type :=
| Err (message : string)
| OperationFailed (cause : jsError)
| InvalidArgument (message : string)
| RangeError (message : string).

(** ** The delay of a timer

    [setTimeout(callback, delay)] of Node, the platform the wrappers are
    typed for ([NodeJS.Timeout]) : a delay that is not between 1 and
    [TIMEOUT_MAX = 2^31 - 1] is replaced by 1. *)

Module Timer.

Local Open Scope Z_scope.

Definition TIMEOUT_MAX : Z := 2147483647.

(** The delay a timer runs with, for the delay it was asked for. *)
Definition timerDelay (after : Z) : Z :=
  if (1 <=? after) && (after <=? TIMEOUT_MAX) then after else 1.

(** The same, as a number of time units of the timer loop. *)
Definition ticks (after : Z) : N := Z.to_N (timerDelay after).

End Timer.

(** ** Utils.retry *)

Module Retry.

Local Open Scope Z_scope.

(** What a run of [retry] does, in order: the [n]-th call of
    [operation] (counted from 0), and a wait of [ms] time units in
    [await Utils.sleep(delay)]. *)
Inductive event : Type :=
| Invoke (n : nat)
| Sleep (ms : Z).

(** [Utils.sleep(ms)] : the time after which the promise it returns is
    resolved, by the timer of [setTimeout(resolve, ms)]. *)
Definition sleep (ms : Z) : Z := Timer.timerDelay ms.

Definition isInvoke (ev : event) : bool :=
  match ev with Invoke _ => true | Sleep _ => false end.

Definition invocations (tr : list event) : nat :=
  List.length (filter isInvoke tr).

Fixpoint delays (tr : list event) : list Z :=
  match tr with
  | [] => []
  | Invoke _ :: tr' => delays tr'
  | Sleep ms :: tr' => ms :: delays tr'
  end.

(** Attempts [0 .. n-1] each followed by its back-off sleep, then
    attempt [n], after which nothing happens. *)
Definition schedule (baseDelay : Z) (n : nat) : list event :=
  flat_map (fun i => [Invoke i; Sleep (sleep (baseDelay * 2 ^ Z.of_nat i))])
           (seq 0 n)
  ++ [Invoke n].

Section Retry.

Variables E T : Type.

(** [operation : () => Promise<T>] takes no argument, so all that
    [retry] can see of it is the outcome of its successive calls:
    [operation n] is the outcome of call number [n].  A synchronous
    throw and a rejected promise both land in the [catch] clause. *)
Variable operation : nat -> settled E T.

(** The [for] loop of [retry].  [lastError] is [None] while the
    variable is still [undefined]; the thrown value is the content of the
    variable.  [calls] counts the calls of [operation] made so far.
    [delay] is computed on integers: the product of the source, on
    doubles, is the same number as long as it is finite, and a product
    that is not ([Infinity], or [NaN] for [0 * Infinity]) lies outside
    [1 .. TIMEOUT_MAX] as the integer does, so that [sleep] waits the
    same time for both. *)
Fixpoint retryLoop (fuel : nat) (maxRetries baseDelay attempt : Z)
    (lastError : option E) (calls : nat)
  : option (settled (option E) T * list event) :=
  match fuel with
  | O => None
  | S fuel' =>
    if attempt <=? maxRetries then
      match operation calls with
      | Fulfilled v => Some (Fulfilled v, [Invoke calls])
      | Rejected error =>
        let lastError := Some error in
        if attempt =? maxRetries then
          Some (Rejected lastError, [Invoke calls])
        else
          let delay := baseDelay * 2 ^ attempt in
          match retryLoop fuel' maxRetries baseDelay (attempt + 1)
                  lastError (S calls) with
          | Some (r, tr) => Some (r, Invoke calls :: Sleep (sleep delay) :: tr)
          | None => None
          end
      end
    else Some (Rejected lastError, [])
  end.

Definition retry (fuel : nat) (maxRetries baseDelay : Z)
  : option (settled (option E) T * list event) :=
  retryLoop fuel maxRetries baseDelay 0 None 0.

Definition fails (n : nat) : Prop := exists e, operation n = Rejected e.

(** What [retry] makes of the outcome of the call it stops at: the
    value is returned, the error is thrown as it is. *)
Definition surface (o : settled E T) : settled (option E) T :=
  match o with
  | Fulfilled v => Fulfilled v
  | Rejected e => Rejected (Some e)
  end.

End Retry.

End Retry.

(** ** Utils.batchProcess *)

Module Batch.

Local Open Scope Z_scope.

(** [Array.prototype.slice]: a negative index counts from the end of the
    array, every index is clamped to [0 .. length], and the slice is
    empty when the end does not exceed the start. *)
Definition relativeIndex (len k : Z) : Z :=
  if k <? 0 then Z.max (len + k) 0 else Z.min k len.

Definition slice {A : Type} (l : list A) (from to : Z) : list A :=
  let len := Z.of_nat (List.length l) in
  let k := relativeIndex len from in
  let final := relativeIndex len to in
  firstn (Z.to_nat (final - k)) (skipn (Z.to_nat k) l).

Section Batch.

Variables T R E : Type.

(** The promise an invocation of [processor] returns: it is settled
    after some time, with an outcome, or it is never settled. *)
Inductive promise : Type :=
| Settles (after : nat) (o : settled E R)
| Pending.

(** [processor : (item: T) => Promise<R>] either throws before it
    returns, or returns a promise.  It is given by what it does on each
    item: an invocation is taken to leave the array [items] as it is. *)
Inductive invocation : Type :=
| Throws (e : E)
| Returns (p : promise).

Variable processor : T -> invocation.

(** [results.push(...batchResults)] passes every element of
    [batchResults] as an argument of one call.  The engine accepts
    [maxArguments] arguments in a call, a number that depends on the size
    of its stack (of the order of 10^5 in Node), and throws
    [rangeError], a [RangeError], when there are more. *)
Variable maxArguments : N.
Variable rangeError : E.

(** The failure of an invocation, if it fails, and its value, if it
    succeeds. *)
Definition failure (c : invocation) : option E :=
  match c with
  | Throws e => Some e
  | Returns (Settles _ (Rejected e)) => Some e
  | Returns _ => None
  end.

Definition fulfilment (c : invocation) : option R :=
  match c with
  | Returns (Settles _ (Fulfilled v)) => Some v
  | _ => None
  end.

Definition succeeds (item : T) : Prop :=
  exists v, fulfilment (processor item) = Some v.

(** The promise the processor returns for an item settles, when it
    returns one. *)
Definition settles (item : T) : Prop := processor item <> Returns Pending.

(** [batch.map(processor)]: the items are handed to [processor] from
    left to right; a throw ends the [map].  ([map] also passes the index
    and the array, which a processor of the declared type
    [(item: T) => Promise<R>] does not look at.)  The first component
    lists the items [processor] was invoked on. *)
Fixpoint mapProcessor (batch : list T) : list T * (E + list promise) :=
  match batch with
  | [] => ([], inr [])
  | item :: rest =>
    match processor item with
    | Throws e => ([item], inl e)
    | Returns p =>
      let '(invoked, r) := mapProcessor rest in
      (item :: invoked,
       match r with inl e => inl e | inr ps => inr (p :: ps) end)
    end
  end.

(** The rejection that settles [Promise.all] : the earliest one, and
    among rejections of the same instant the one of the lowest index. *)
Fixpoint firstRejection (ps : list promise) : option (nat * E) :=
  match ps with
  | [] => None
  | Settles after (Rejected e) :: rest =>
    match firstRejection rest with
    | Some (t, e') => if (t <? after)%nat then Some (t, e') else Some (after, e)
    | None => Some (after, e)
    end
  | _ :: rest => firstRejection rest
  end.

Fixpoint values (ps : list promise) : list R :=
  match ps with
  | [] => []
  | Settles _ (Fulfilled v) :: rest => v :: values rest
  | _ :: rest => values rest
  end.

Definition isPending (p : promise) : bool :=
  match p with Pending => true | Settles _ _ => false end.

(** [await Promise.all(ps)] : rejected as soon as one promise is,
    fulfilled with the values once every promise is fulfilled, and
    otherwise never settled ([None]). *)
Definition promiseAll (ps : list promise) : option (settled E (list R)) :=
  match firstRejection ps with
  | Some (_, e) => Some (Rejected e)
  | None => if existsb isPending ps then None else Some (Fulfilled (values ps))
  end.

(** The ways a chunk can end. *)
Inductive chunkEnd (batch : list T) : list T * (E + list promise) -> Prop :=
| ChunkThrew j x e invoked :
    nth_error batch j = Some x -> failure (processor x) = Some e ->
    invoked = firstn (S j) batch ->
    chunkEnd batch (invoked, inl e)
| ChunkRejected j x e ps :
    nth_error batch j = Some x -> failure (processor x) = Some e ->
    promiseAll ps = Some (Rejected e) ->
    chunkEnd batch (batch, inr ps)
| ChunkStuck x ps :
    In x batch -> processor x = Returns Pending ->
    (forall y, In y batch -> failure (processor y) = None) ->
    promiseAll ps = None ->
    chunkEnd batch (batch, inr ps)
| ChunkDone ps :
    Forall succeeds batch ->
    promiseAll ps = Some (Fulfilled (values ps)) ->
    map Some (values ps) = map (fun x => fulfilment (processor x)) batch ->
    chunkEnd batch (batch, inr ps).

(** How a call ends: the promise it returned is settled, or the call
    awaits for ever a [Promise.all] that is never settled. *)
Inductive ending : Type :=
| Settled (o : settled E (list R))
| Awaiting.

(** The [for] loop of [batchProcess].  The result pairs the items
    [processor] was invoked on, in order, with the way the call ends
    ([None] : still looping when the fuel ran out). *)
Fixpoint batchLoop (fuel : nat) (items : list T) (concurrency i : Z)
    (results : list R) : list T * option ending :=
  match fuel with
  | O => ([], None)
  | S fuel' =>
    if i <? Z.of_nat (List.length items) then
      let batch := slice items i (i + concurrency) in
      match mapProcessor batch with
      | (invoked, inl e) => (invoked, Some (Settled (Rejected e)))
      | (invoked, inr batchPromises) =>
        match promiseAll batchPromises with
        | None => (invoked, Some Awaiting)
        | Some (Rejected e) => (invoked, Some (Settled (Rejected e)))
        | Some (Fulfilled batchResults) =>
          if (maxArguments <? N.of_nat (List.length batchResults))%N then
            (invoked, Some (Settled (Rejected rangeError)))
          else
            let '(later, r) :=
              batchLoop fuel' items concurrency (i + concurrency)
                (results ++ batchResults) in
            (invoked ++ later, r)
        end
      end
    else ([], Some (Settled (Fulfilled results)))
  end.

Definition batchProcess (fuel : nat) (items : list T) (concurrency : Z)
  : list T * option ending :=
  batchLoop fuel items concurrency 0 [].

(** The same loop on a [nat] chunk size, consuming the list: what
    [batchLoop] does when [concurrency >= 1] (lemma [batchLoop_chunks]). *)
Fixpoint chunkLoop (fuel : nat) (c : nat) (rest : list T) (results : list R)
  : list T * option ending :=
  match fuel with
  | O => ([], None)
  | S fuel' =>
    match rest with
    | [] => ([], Some (Settled (Fulfilled results)))
    | _ :: _ =>
      match mapProcessor (firstn c rest) with
      | (invoked, inl e) => (invoked, Some (Settled (Rejected e)))
      | (invoked, inr batchPromises) =>
        match promiseAll batchPromises with
        | None => (invoked, Some Awaiting)
        | Some (Rejected e) => (invoked, Some (Settled (Rejected e)))
        | Some (Fulfilled batchResults) =>
          if (maxArguments <? N.of_nat (List.length batchResults))%N then
            (invoked, Some (Settled (Rejected rangeError)))
          else
            let '(later, r) :=
              chunkLoop fuel' c (skipn c rest) (results ++ batchResults) in
            (invoked ++ later, r)
        end
      end
    end
  end.

End Batch.

Arguments Pending {R E}.
Arguments Throws {R E} e.
Arguments Returns {R E} p.
Arguments Awaiting {R E}.

End Batch.

(** ** Timers

    [setTimeout] and [clearTimeout] on a clock that is advanced
    explicitly.  Callbacks are kept as data ([callback]) and interpreted
    by [run]; due timers fire in order of due time and, for equal due
    times, in order of registration. *)

Module EventLoop.

Local Open Scope N_scope.

Section Loop.

Variable callback : Type.
Variable world : Type.

(** [run cb t w] : the effect of callback [cb] firing at instant [t]. *)
Variable run : callback -> N -> world -> world.

Record timer : Type := { handle : nat; due : N; action : callback }.

Record loop : Type := { now : N; fresh : nat; pending : list timer }.

Definition idle (t : N) : loop := {| now := t; fresh := 1; pending := [] |}.

Fixpoint enqueue (t : timer) (q : list timer) : list timer :=
  match q with
  | [] => [t]
  | u :: q' => if due t <? due u then t :: q else u :: enqueue t q'
  end.

(** Something that will happen at instant [at_]. *)
Definition register (cb : callback) (at_ : N) (l : loop) : nat * loop :=
  (fresh l,
   {| now := now l;
      fresh := S (fresh l);
      pending := enqueue {| handle := fresh l; due := at_; action := cb |}
                         (pending l) |}).

(** [setTimeout(cb, delay)] : the timer is due when the delay it runs
    with has passed. *)
Definition setTimeout (cb : callback) (delay : Z) (l : loop) : nat * loop :=
  register cb (now l + Timer.ticks delay) l.

Definition clearTimeout (h : nat) (l : loop) : loop :=
  {| now := now l;
     fresh := fresh l;
     pending := filter (fun t => negb (Nat.eqb (handle t) h)) (pending l) |}.

(** Fire, in order, the timers that are due by [deadline]. *)
Fixpoint fire (q : list timer) (deadline : N) (w : world)
  : list timer * world :=
  match q with
  | [] => ([], w)
  | t :: q' =>
    if due t <=? deadline then fire q' deadline (run (action t) (due t) w)
    else (q, w)
  end.

(** Let [d] time units pass. *)
Definition advance (d : N) (s : loop * world) : loop * world :=
  let '(l, w) := s in
  let '(q, w') := fire (pending l) (now l + d) w in
  ({| now := now l + d; fresh := fresh l; pending := q |}, w').

End Loop.

End EventLoop.

(** ** Utils.debounce *)

Module Debounce.

Import EventLoop.
Local Open Scope N_scope.

Section Debounce.

Variables Args U : Type.

(** [func] acts on the part [U] of the program state it can reach; it
    is handed neither the wrapper nor its timer.  With the state it
    leaves comes whether it ended by throwing. *)
Variable func : Args -> U -> U * bool.
Variable wait : Z.

(** The arrow function handed to [setTimeout] : it closes over [args]. *)
Inductive callback : Type := Later (args : Args).

(** The closure variable [timeout] ([None] is [null]), the calls of
    [func] so far with their instants, and the state [func] acts on. *)
Record closure : Type :=
  { timeout : option nat; calls : list (N * Args); env : U }.

(** [func(...args); timeout = null;] : an exception of [func] leaves
    the callback before the assignment. *)
Definition run (cb : callback) (t : N) (w : closure) : closure :=
  match cb with
  | Later args =>
    let '(u, threw) := func args (env w) in
    {| timeout := if threw then timeout w else None;
       calls := calls w ++ [(t, args)];
       env := u |}
  end.

Definition state : Type := loop callback * closure.

(** [debounce(func, wait)], evaluated at instant [t0]. *)
Definition debounce (t0 : N) (u : U) : state :=
  (idle callback t0, {| timeout := None; calls := []; env := u |}).

(** One call of the returned function. *)
Definition call (args : Args) (s : state) : state :=
  let '(l, w) := s in
  let l1 := match timeout w with
            | Some h => clearTimeout h l
            | None => l
            end in
  let '(h, l2) := setTimeout (Later args) wait l1 in
  (l2, {| timeout := Some h; calls := calls w; env := env w |}).

Inductive step : Type :=
| Call (args : Args)
| Wait (d : N).

Definition exec1 (s : state) (st : step) : state :=
  match st with
  | Call args => call args s
  | Wait d => advance run d s
  end.

Definition exec (script : list step) (s : state) : state :=
  fold_left exec1 script s.

(** A burst: a first call, then further calls, each [gap] time units
    after the one before it. *)
Definition burst (first : Args) (more : list (N * Args)) : list step :=
  Call first :: flat_map (fun '(gap, args) => [Wait gap; Call args]) more.

Definition lastArgs (first : Args) (more : list (N * Args)) : Args :=
  last (map snd more) first.

Definition duration (more : list (N * Args)) : N :=
  fold_right N.add 0 (map fst more).

(** The timer queue and the closure variable agree: no timer is
    pending, or exactly the timer [timeout] names is. *)
Definition coherent (s : state) : Prop :=
  pending (fst s) = [] \/
  (exists t, timeout (snd s) = Some (handle t) /\ pending (fst s) = [t]).

End Debounce.

End Debounce.

(** ** Utils.throttle *)

Module Throttle.

Import EventLoop.
Local Open Scope N_scope.

Section Throttle.

Variables Args U : Type.

(** [func], as for [debounce] : the state it leaves, and whether it
    ended by throwing. *)
Variable func : Args -> U -> U * bool.
Variable limit : Z.

(** [() => inThrottle = false] *)
Inductive callback : Type := Unlock.

Record closure : Type :=
  { inThrottle : bool; calls : list (N * Args); env : U }.

Definition run (cb : callback) (t : N) (w : closure) : closure :=
  match cb with
  | Unlock => {| inThrottle := false; calls := calls w; env := env w |}
  end.

Definition state : Type := loop callback * closure.

Definition throttle (t0 : N) (u : U) : state :=
  (idle callback t0, {| inThrottle := false; calls := []; env := u |}).

(** One call of the returned function.  [func(...args)] comes first:
    when it throws, the exception leaves the wrapper, to its caller,
    before [inThrottle = true] and [setTimeout]. *)
Definition call (args : Args) (s : state) : state :=
  let '(l, w) := s in
  if negb (inThrottle w) then
    let '(u, threw) := func args (env w) in
    if threw then
      (l, {| inThrottle := false;
             calls := calls w ++ [(now l, args)];
             env := u |})
    else
      let '(_, l') := setTimeout Unlock limit l in
      (l', {| inThrottle := true;
              calls := calls w ++ [(now l, args)];
              env := u |})
  else s.

Inductive step : Type :=
| Call (args : Args)
| Wait (d : N).

Definition exec1 (s : state) (st : step) : state :=
  match st with
  | Call args => call args s
  | Wait d => advance run d s
  end.

Definition exec (script : list step) (s : state) : state :=
  fold_left exec1 script s.

Definition elapsed (script : list step) : N :=
  fold_right N.add 0
    (map (fun st => match st with Call _ => 0 | Wait d => d end) script).

(** Unlocked with no timer pending, or locked with the one timer that
    will unlock. *)
Definition coherent (s : state) : Prop :=
  (inThrottle (snd s) = false /\ pending (fst s) = []) \/
  (inThrottle (snd s) = true /\ exists t, pending (fst s) = [t]).

End Throttle.

End Throttle.

(** ** Utils.timeout *)

Module Timeout.

Import EventLoop.
Local Open Scope N_scope.

(** The text of an integer below [10^21] in a template literal. *)
Definition decimal (n : Z) : string := NilZero.string_of_int (Z.to_int n).

Section Timeout.

Variables E T : Type.

(** The text of [${ms}] : the digits of [ms], as long as it is an
    integer below [10^21]. *)
Variable numberToString : Z -> string.

(** [`Operation timed out after ${ms}ms`] *)
Definition message (ms : Z) : string :=
  String.append "Operation timed out after "
    (String.append (numberToString ms) "ms").

(** What the returned promise can be rejected with: the reason of
    [promise], or the [Error] made by the timer callback. *)
Inductive reason : Type :=
| Underlying (e : E)
| TimedOut (text : string).

(** The two things that can happen after the call: the operation behind
    [promise] settles it, and the timer of [timeout] fires. *)
Inductive callback : Type :=
| SettleInput (o : settled E T)
| RejectRace (ms : Z).

(** The state of [promise] and of the promise [Promise.race] returned,
    the latter with the instant it settled. *)
Record world : Type :=
  { input : option (settled E T); race : option (N * settled reason T) }.

Definition adopt (o : settled E T) : settled reason T :=
  match o with
  | Fulfilled v => Fulfilled v
  | Rejected e => Rejected (Underlying e)
  end.

(** Settling a promise that is already settled does nothing. *)
Definition settleRace (t : N) (o : settled reason T) (w : world) : world :=
  match race w with
  | Some _ => w
  | None => {| input := input w; race := Some (t, o) |}
  end.

Definition run (cb : callback) (t : N) (w : world) : world :=
  match cb with
  | SettleInput o => settleRace t (adopt o) {| input := Some o; race := race w |}
  | RejectRace ms => settleRace t (Rejected (TimedOut (message ms))) w
  end.

Definition state : Type := loop callback * world.

(** The operation in flight when [timeout] is called, at instant 0:
    [Some (t, o)] settles [promise] with [o] at instant [t] ([t = 0] : it
    is settled already), [None] never settles it. *)
Definition inFlight (promise : option (N * settled E T)) : state :=
  (match promise with
   | Some (t, o) => snd (register (SettleInput o) t (idle callback 0))
   | None => idle callback 0
   end,
   {| input := None; race := None |}).

Definition timeout (promise : option (N * settled E T)) (ms : Z) : state :=
  let '(l, w) := inFlight promise in
  (snd (setTimeout (RejectRace ms) ms l), w).

(** The returned promise as seen [d] time units after the call. *)
Definition observe (d : N) (s : state) : option (N * settled reason T) :=
  race (snd (advance run d s)).

End Timeout.

End Timeout.

(** ** Further measures of the runs above *)

Module RetryTiming.

Import Retry.
Local Open Scope Z_scope.

(** The time a run of [retry] spends in [Utils.sleep]. *)
Definition totalDelay (tr : list event) : Z := fold_right Z.add 0 (delays tr).

End RetryTiming.

Module BatchRounds.

Import Batch.
Local Open Scope Z_scope.

Section BatchRounds.

Variables T R E : Type.
Variable processor : T -> invocation R E.
Variable maxArguments : N.

(** The successive values of [batch] in the loop of [batchProcess] :
    the loop of [batchLoop], keeping the slices instead of the results. *)
Fixpoint batches (fuel : nat) (items : list T) (concurrency i : Z)
  : list (list T) :=
  match fuel with
  | O => []
  | S fuel' =>
    if i <? Z.of_nat (List.length items) then
      let batch := slice items i (i + concurrency) in
      batch ::
      match mapProcessor processor batch with
      | (_, inl _) => []
      | (_, inr batchPromises) =>
        match promiseAll batchPromises with
        | Some (Fulfilled batchResults) =>
          if (maxArguments <? N.of_nat (List.length batchResults))%N then []
          else batches fuel' items concurrency (i + concurrency)
        | _ => []
        end
      end
    else []
  end.

(** The chunks that lie wholly before the item that follows [pre] hold
    [c] items each, when there are any; the engine must take the results
    of a chunk as the arguments of one call. *)
Definition chunksFit (c : nat) (pre : list T) : Prop :=
  (List.length pre < c)%nat \/ (N.of_nat c <= maxArguments)%N.

End BatchRounds.

End BatchRounds.

Module DebounceHistory.

Import EventLoop Debounce.
Local Open Scope N_scope.

Section DebounceHistory.

Variable Args : Type.

(** The calls a script makes, each with the instant it is made at, when
    the script starts at instant [t]. *)
Fixpoint issued (t : N) (script : list (step Args)) : list (N * Args) :=
  match script with
  | [] => []
  | Call args :: script' => (t, args) :: issued t script'
  | Wait _ d :: script' => issued (t + d) script'
  end.



Variable U : Type.

(** Where the calls of [func] come from: [H] lists the calls made so
    far, with their instants; a delivery, done or scheduled, is [delay]
    after one of them. *)
Definition traced (delay : N) (H : list (N * Args)) (s : state Args U) : Prop :=
  (forall t a, In (t, a) (calls (snd s)) ->
               exists tc, In (tc, a) H /\ t = tc + delay) /\
  (pending (fst s) = [] \/
   (exists tm tc a, timeout (snd s) = Some (handle tm) /\
                    pending (fst s) = [tm] /\
                    action tm = Later a /\ due tm = tc + delay /\
                    In (tc, a) H)) /\
  (List.length (calls (snd s)) + List.length (pending (fst s))
   <= List.length H)%nat.

End DebounceHistory.

End DebounceHistory.

Module ThrottleSpacing.

Import EventLoop Throttle.
Local Open Scope N_scope.

Section ThrottleSpacing.

Variable Args : Type.

(** Successive calls of [func] lie at least [gap] apart. *)
Fixpoint spaced (gap : N) (log : list (N * Args)) : Prop :=
  match log with
  | [] => True
  | (t1, _) :: rest =>
    match rest with
    | [] => True
    | (t2, _) :: _ => t1 + gap <= t2 /\ spaced gap rest
    end
  end.

Definition lastInstant (log : list (N * Args)) : option N :=
  match rev log with
  | [] => None
  | (t, _) :: _ => Some t
  end.

Variable U : Type.

(** The calls of [func] so far are spaced, and the next one cannot come
    too early : the wrapper is unlocked only when [gap] has passed since
    the last call of [func], and while it is locked the timer that
    unlocks it is due [gap] after that call. *)
Definition metered (gap : N) (s : state Args U) : Prop :=
  spaced gap (calls (snd s)) /\
  ((inThrottle (snd s) = false /\ pending (fst s) = [] /\
    forall t, lastInstant (calls (snd s)) = Some t -> t + gap <= now (fst s)) \/
   (inThrottle (snd s) = true /\
    exists tm t, pending (fst s) = [tm] /\
                 lastInstant (calls (snd s)) = Some t /\
                 due tm = t + gap)).

End ThrottleSpacing.

End ThrottleSpacing.

(** ** What every object inherits

    The names [Object.prototype] defines.  For such a name, [obj[key]]
    finds what is inherited when [obj] has no property of its own with
    that name, and an assignment to [__proto__] stores no property.  The
    objects modelled below hold own properties only: what is stated of
    them is stated for keys that are not among these names. *)

Module ObjectPrototype.

Local Open Scope string_scope.

Definition inheritedNames : list string :=
  ["__proto__"; "constructor"; "hasOwnProperty"; "isPrototypeOf";
   "propertyIsEnumerable"; "toLocaleString"; "toString"; "valueOf";
   "__defineGetter__"; "__defineSetter__"; "__lookupGetter__";
   "__lookupSetter__"].

Definition isInherited (key : string) : bool :=
  existsb (String.eqb key) inheritedNames.

End ObjectPrototype.

(** ** PerformanceUtils *)

Module PerformanceUtils.

Import stdpp.base stdpp.strings stdpp.gmap.
Local Open Scope Z_scope.

(** The static map [timers], the time [Date.now()] returns, and the
    lines written by [console.log], each kept as the name and the duration
    it reports. *)
Record perf : Type :=
  { timers : gmap string Z; clock : Z; console : list (string * Z) }.

(** Time passing: [Date.now()] returns [t] from now on. *)
Definition atTime (t : Z) (s : perf) : perf :=
  {| timers := timers s; clock := t; console := console s |}.

(** [new Error(`Timer '${name}' was not started`)] *)
Definition notStarted (name : string) : jsError :=
  Err ("Timer '" ++ name ++ "' was not started")%string.

Definition startTimer (name : string) (s : perf) : perf :=
  {| timers := <[name := clock s]> (timers s);
     clock := clock s;
     console := console s |}.

(** [!startTime] holds when the name is not in the map, and also when
    the start time recorded for it is 0. *)
Definition endTimer (name : string) (s : perf) : (jsError + Z) * perf :=
  match timers s !! name with
  | Some startTime =>
    if startTime =? 0 then (inl (notStarted name), s)
    else (inr (clock s - startTime),
          {| timers := delete name (timers s);
             clock := clock s;
             console := console s |})
  | None => (inl (notStarted name), s)
  end.

Section Measure.

Variable T : Type.

(** [measure(name, fn)].  [fn] returns a value or throws, and may do
    anything to the timers and take any time.  An error thrown in the
    [try] block, by [fn] or by [endTimer], is handled by the [catch]
    clause, whose [endTimer] may throw in its turn. *)
Definition measure (name : string) (fn : perf -> (jsError + T) * perf)
    (s : perf) : (jsError + T) * perf :=
  let handler (error : jsError) (s' : perf) :=
    match endTimer name s' with
    | (inl error', s'') => (inl error', s'')
    | (inr _, s'') => (inl error, s'')
    end in
  match fn (startTimer name s) with
  | (inr result, s1) =>
    match endTimer name s1 with
    | (inr duration, s2) =>
      (inr result,
       {| timers := timers s2;
          clock := clock s2;
          console := console s2 ++ [(name, duration)] |})
    | (inl error, s2) => handler error s2
    end
  | (inl error, s1) => handler error s1
  end.

End Measure.

End PerformanceUtils.

(** ** EnvUtils *)

Module EnvUtils.

Import stdpp.base stdpp.strings stdpp.gmap.

(** What [process.env[key]] finds: the text of a variable of the
    environment, or, for a name that is not a variable, what
    [process.env] inherits from [Object.prototype] under that name (a
    function, or the prototype itself). *)
Inductive found : Type :=
| Text (value : string)
| Inherited (name : string).

(** [process.env[key]]; [None] is [undefined].  The map holds the
    variables of the environment under their exact names. *)
Definition envLookup (env : gmap string string) (key : string) : option found :=
  match env !! key with
  | Some value => Some (Text value)
  | None =>
    if ObjectPrototype.isInherited key then Some (Inherited key) else None
  end.

(** A string is falsy when it is empty; functions and objects are
    truthy. *)
Definition truthy (v : found) : bool :=
  match v with
  | Text EmptyString => false
  | Text (String _ _) => true
  | Inherited _ => true
  end.

(** [process.env[key] || defaultValue] *)
Definition getEnvVar (env : gmap string string) (key : string)
    (defaultValue : option string) : option found :=
  match envLookup env key with
  | Some value => if truthy value then Some value else option_map Text defaultValue
  | None => option_map Text defaultValue
  end.

Definition requireEnvVar (env : gmap string string) (key : string)
  : jsError + found :=
  match envLookup env key with
  | Some value =>
    if truthy value then inr value
    else inl (Err ("Required environment variable " ++ key ++ " is not set")%string)
  | None => inl (Err ("Required environment variable " ++ key ++ " is not set")%string)
  end.

(** [process.env['NODE_ENV'] === mode] *)
Definition nodeEnvIs (env : gmap string string) (mode : string) : bool :=
  match envLookup env "NODE_ENV" with
  | Some (Text value) => String.eqb value mode
  | _ => false
  end.

Definition isDevelopment (env : gmap string string) : bool := nodeEnvIs env "development".
Definition isProduction (env : gmap string string) : bool := nodeEnvIs env "production".
Definition isTest (env : gmap string string) : bool := nodeEnvIs env "test".

End EnvUtils.

(** ** Utils.isValidEmail *)

Module Email.

Local Open Scope N_scope.

(** A string is its sequence of UTF-16 code units. *)
Definition codeUnits (s : string) : list N :=
  map Ascii.N_of_ascii (list_ascii_of_string s).

(** The class [\s] : the white space and line terminator code points. *)
Definition isWhiteSpace (c : N) : bool :=
  existsb (N.eqb c)
    [9; 10; 11; 12; 13; 32; 160; 5760; 8232; 8233; 8239; 8287; 12288; 65279]
  || ((8192 <=? c) && (c <=? 8202)).

Definition at_ : N := 64.
Definition dot : N := 46.

(** The class [[^\s@]]. *)
Definition plain (c : N) : bool := negb (isWhiteSpace c || (c =? at_)).

Inductive regex : Type :=
| Void
| Epsilon
| Class (p : N -> bool)
| Cat (r1 r2 : regex)
| Alt (r1 r2 : regex)
| Star (r : regex).

Definition Plus (r : regex) : regex := Cat r (Star r).

(** The strings a pattern matches from its first to its last code
    unit. *)
Inductive Matches : regex -> list N -> Prop :=
| MEpsilon : Matches Epsilon []
| MClass p c : p c = true -> Matches (Class p) [c]
| MCat r1 r2 s1 s2 : Matches r1 s1 -> Matches r2 s2 -> Matches (Cat r1 r2) (s1 ++ s2)
| MAltL r1 r2 s : Matches r1 s -> Matches (Alt r1 r2) s
| MAltR r1 r2 s : Matches r2 s -> Matches (Alt r1 r2) s
| MStarNil r : Matches (Star r) []
| MStarCons r s1 s2 :
    Matches r s1 -> Matches (Star r) s2 -> Matches (Star r) (s1 ++ s2).

Fixpoint nullable (r : regex) : bool :=
  match r with
  | Void => false
  | Epsilon => true
  | Class _ => false
  | Cat r1 r2 => nullable r1 && nullable r2
  | Alt r1 r2 => nullable r1 || nullable r2
  | Star _ => true
  end.

Fixpoint derivative (c : N) (r : regex) : regex :=
  match r with
  | Void => Void
  | Epsilon => Void
  | Class p => if p c then Epsilon else Void
  | Cat r1 r2 =>
    if nullable r1
    then Alt (Cat (derivative c r1) r2) (derivative c r2)
    else Cat (derivative c r1) r2
  | Alt r1 r2 => Alt (derivative c r1) (derivative c r2)
  | Star r1 => Cat (derivative c r1) (Star r1)
  end.

(** [regex.test(s)] for a pattern anchored at both ends. *)
Fixpoint test (r : regex) (s : list N) : bool :=
  match s with
  | [] => nullable r
  | c :: s' => test (derivative c r) s'
  end.

(** [/^[^\s@]+@[^\s@]+\.[^\s@]+$/] *)
Definition emailRegex : regex :=
  Cat (Plus (Class plain))
      (Cat (Class (N.eqb at_))
           (Cat (Plus (Class plain))
                (Cat (Class (N.eqb dot))
                     (Plus (Class plain))))).

Definition isValidEmail (email : list N) : bool := test emailRegex email.

End Email.

(** ** Utils.getNestedValue, setNestedValue, removeUndefined, mergeDeep

    The values these helpers are run on here are trees of plain objects:
    [undefined], [null], a primitive (boolean, number, string; [typeof]
    is not ['object']), or an object given by its own properties, in
    the order in which [for ... in] visits them.  The objects are
    ordinary ones: extensible, their properties writable, their prototype
    [Object.prototype].  Arrays, functions and what an object inherits
    from its prototype are outside this model, and so are sharing (an
    object reached along two paths is two subtrees) and the depth of
    recursion the engine has room for. *)

Module Objects.

Section Objects.

Variable Prim : Type.

(** Which primitives are truthy. *)
Variable truthyPrim : Prim -> bool.

#[local] Set Warnings "-register-all".

Inductive value : Type :=
| VUndefined
| VNull
| VPrim (p : Prim)
| VObject (props : list (string * value)).

(** [obj[key]] on the properties of an object. *)
Fixpoint lookup (props : list (string * value)) (key : string) : option value :=
  match props with
  | [] => None
  | (k, v) :: rest => if String.eqb k key then Some v else lookup rest key
  end.

Definition prop (props : list (string * value)) (key : string) : value :=
  match lookup props key with
  | Some v => v
  | None => VUndefined
  end.

(** [obj[key] = v] : the property keeps its place when it exists and is
    added at the end otherwise (the place of a new property whose key is
    not an array index). *)
Fixpoint assign (props : list (string * value)) (key : string) (v : value)
  : list (string * value) :=
  match props with
  | [] => [(key, v)]
  | (k, w) :: rest =>
    if String.eqb k key then (k, v) :: rest else (k, w) :: assign rest key v
  end.

(** [path.split('.')] *)
Fixpoint split (path : string) : list string :=
  match path with
  | EmptyString => [EmptyString]
  | String c rest =>
    match split rest with
    | [] => [String c EmptyString]
    | first :: others =>
      if String.eqb (String c EmptyString) "." then EmptyString :: first :: others
      else String c first :: others
    end
  end.

(** A key is truthy when it is not the empty string. *)
Definition truthyKey (key : string) : bool :=
  match key with EmptyString => false | String _ _ => true end.

(** The loop of [getNestedValue], then the test of its last line. *)
Fixpoint walk (keys : list string) (current defaultValue : value) : value :=
  match keys with
  | [] =>
    match current with
    | VUndefined => defaultValue
    | _ => current
    end
  | key :: keys' =>
    match current with
    | VObject props => walk keys' (prop props key) defaultValue
    | _ => defaultValue
    end
  end.

Definition getNestedValue (obj : value) (path : string) (defaultValue : value)
  : value :=
  walk (split path) obj defaultValue.

(** [setNestedValue] below an object : the loop over all keys but the
    last, which replaces what is not an object by [{}] and steps into it,
    skipping empty keys, and the assignment to the last key. *)
Fixpoint setPath (keys : list string) (current : list (string * value))
    (v : value) : list (string * value) :=
  match keys with
  | [] => current
  | key :: keys' =>
    match keys' with
    | [] => if truthyKey key then assign current key v else current
    | _ :: _ =>
      if truthyKey key then
        assign current key
          (VObject (setPath keys'
                      (match lookup current key with
                       | Some (VObject props) => props
                       | _ => []
                       end) v))
      else setPath keys' current v
    end
  end.

(** [setNestedValue(obj, path, value)] : the object afterwards, or
    [None] when a [TypeError] is thrown, which happens when [obj] is not
    an object and some key of the path is not empty. *)
Definition setNestedValue (obj : value) (path : string) (v : value)
  : option value :=
  match obj with
  | VObject props => Some (VObject (setPath (split path) props v))
  | _ => if existsb truthyKey (split path) then None else Some obj
  end.

Definition isUndefined (v : value) : bool :=
  match v with VUndefined => true | _ => false end.

(** [removeUndefined(obj)] : the [for ... in] loop over the keys. *)
Definition removeUndefined (obj : list (string * value)) : list (string * value) :=
  fold_left
    (fun result key =>
       if isUndefined (prop obj key) then result
       else assign result key (prop obj key))
    (map fst obj) [].

(** [!v] *)
Definition falsy (v : value) : bool :=
  match v with
  | VUndefined | VNull => true
  | VPrim p => negb (truthyPrim p)
  | VObject _ => false
  end.

Definition isObject (v : value) : bool :=
  match v with VObject _ => true | _ => false end.

(** The body of the [for ... in] loop of [mergeDeep] for one key of the
    source; [recur] is the recursive call of [mergeDeep] on
    [target[key]] and [source[key]]. *)
Definition mergeEntry (recur : value -> value -> value)
    (t : list (string * value)) (entry : string * value)
  : list (string * value) :=
  let '(key, sv) := entry in
  if isObject sv then
    let t1 := if falsy (prop t key) then assign t key (VObject []) else t in
    match prop t1 key with
    | VObject _ as tv => assign t1 key (recur sv tv)
    | _ => t1
    end
  else assign t key sv.

(** One round of [mergeDeep] : [source] merged into [target]. *)
Fixpoint mergeInto (source target : value) {struct source} : value :=
  match target, source with
  | VObject tprops, VObject sprops =>
    VObject (fold_left (mergeEntry mergeInto) sprops tprops)
  | _, _ => target
  end.

(** What one round leaves under a key that [source] holds, given what
    [target] held there. *)
Definition mergedProp (sv tv : value) : value :=
  if isObject sv then
    match (if falsy tv then VObject [] else tv) with
    | VObject _ as tv' => mergeInto sv tv'
    | other => other
    end
  else sv.

Fixpoint mergeDeep (target : value) (sources : list value) : value :=
  match sources with
  | [] => target
  | source :: rest => mergeDeep (mergeInto source target) rest
  end.

End Objects.

Arguments VUndefined {Prim}.
Arguments VNull {Prim}.

End Objects.

(** ** Utils.deepClone, on the values of [Objects] *)

Module Clone.

Import Objects.

Section Clone.

Variable Prim : Type.

(** [deepClone] : what is not an object is returned as it is; for an
    object, each own property is cloned into a new object, in order. *)
Fixpoint deepClone (obj : value Prim) : value Prim :=
  match obj with
  | VObject props =>
    VObject
      (fold_left
         (fun cloned entry => assign cloned (fst entry) (deepClone (snd entry)))
         props [])
  | _ => obj
  end.

(** No key of an object, or of an object below it, is a name that
    objects inherit. *)
Fixpoint ownKeys (v : value Prim) : Prop :=
  match v with
  | VObject props =>
    (fix below (ps : list (string * value Prim)) : Prop :=
       match ps with
       | [] => True
       | (k, w) :: rest =>
         ObjectPrototype.isInherited k = false /\ ownKeys w /\ below rest
       end) props
  | _ => True
  end.

(** An object has distinct keys, and so have the objects below it. *)
Fixpoint distinctKeys (v : value Prim) : Prop :=
  match v with
  | VObject props =>
    NoDup (map fst props) /\
    (fix below (ps : list (string * value Prim)) : Prop :=
       match ps with
       | [] => True
       | (_, w) :: rest => distinctKeys w /\ below rest
       end) props
  | _ => True
  end.

End Clone.

End Clone.

(** ** Utils.generateId *)

Module RandomId.

Local Open Scope Z_scope.

Definition chars : string :=
  "ABCDEFGHIJKLMNOPQRSTUVWXYZabcdefghijklmnopqrstuvwxyz0123456789".

(** [s.charAt(k)] : the character at index [k], or the empty string
    when [k] is out of range. *)
Definition charAt (s : string) (k : Z) : string :=
  if k <? 0 then EmptyString
  else match String.get (Z.to_nat k) s with
       | Some c => String c EmptyString
       | None => EmptyString
       end.

(** The loop of [generateId]; [draw i] is the value of
    [Math.floor(Math.random() * chars.length)] in round [i]. *)
Fixpoint generateLoop (draw : nat -> Z) (i rounds : nat) (result : string)
  : string :=
  match rounds with
  | O => result
  | S rounds' =>
    generateLoop draw (S i) rounds' (String.append result (charAt chars (draw i)))
  end.

Definition generateId (draw : nat -> Z) (length : Z) : string :=
  generateLoop draw 0 (Z.to_nat length) EmptyString.

End RandomId.

(** * Properties *)

(** ** retry *)

Section RetryFacts.

Import Retry.
Local Open Scope Z_scope.

Variables E T : Type.
Variable operation : nat -> settled E T.

Lemma invocations_app (a b : list event) :
  invocations (a ++ b) = (invocations a + invocations b)%nat.
Proof.
  unfold invocations. rewrite filter_app, length_app. reflexivity.
Qed.

Lemma invocations_rounds (f : nat -> Z) (from n : nat) :
  invocations (flat_map (fun i => [Invoke i; Sleep (f i)]) (seq from n)) = n.
Proof.
  revert from. induction n as [|n IH]; intro from; [reflexivity|].
  cbn [seq flat_map]. rewrite invocations_app, IH. reflexivity.
Qed.

Lemma invocations_schedule (D : Z) (n : nat) :
  invocations (schedule D n) = S n.
Proof.
  unfold schedule. rewrite invocations_app, invocations_rounds.
  cbn. lia.
Qed.

Lemma delays_app (a b : list event) : delays (a ++ b) = delays a ++ delays b.
Proof.
  induction a as [|[n|ms] a IH]; cbn; [reflexivity|exact IH|now rewrite IH].
Qed.

Lemma delays_rounds (f : nat -> Z) (from n : nat) :
  delays (flat_map (fun i => [Invoke i; Sleep (f i)]) (seq from n))
  = map f (seq from n).
Proof.
  revert from. induction n as [|n IH]; intro from; [reflexivity|].
  cbn [seq flat_map map]. rewrite delays_app, IH. reflexivity.
Qed.

Lemma delays_schedule (D : Z) (n : nat) :
  delays (schedule D n) = map (fun i => sleep (D * 2 ^ Z.of_nat i)) (seq 0 n).
Proof.
  unfold schedule. rewrite delays_app, delays_rounds. cbn.
  now rewrite app_nil_r.
Qed.

Lemma last_schedule (D : Z) (n : nat) (d : event) :
  last (schedule D n) d = Invoke n.
Proof. unfold schedule. apply last_last. Qed.

(** The loop, entered at attempt [calls] after [calls] failed calls,
    stops at call [calls + k] when the calls before it fail and that call
    either succeeds or is the last one allowed. *)
Lemma retryLoop_run (R D : Z) (k : nat) :
  forall (fuel calls : nat) (lastError : option E),
    (k < fuel)%nat ->
    Z.of_nat (calls + k) <= R ->
    (forall j, (j < k)%nat -> fails operation (calls + j)) ->
    (Z.of_nat (calls + k) = R \/ exists v, operation (calls + k) = Fulfilled v) ->
    retryLoop operation fuel R D (Z.of_nat calls) lastError calls
    = Some (surface (operation (calls + k)),
            flat_map (fun i => [Invoke i; Sleep (sleep (D * 2 ^ Z.of_nat i))])
                     (seq calls k)
            ++ [Invoke (calls + k)]).
Proof.
  induction k as [|k IH]; intros fuel calls lastError Hfuel Hle Hfail Hstop.
  - destruct fuel as [|fuel]; [lia|]. cbn [retryLoop seq flat_map app].
    rewrite Nat.add_0_r in *.
    replace (Z.of_nat calls <=? R) with true by (symmetry; apply Z.leb_le; lia).
    destruct (operation calls) as [v|e] eqn:Hop; [reflexivity|].
    destruct Hstop as [Hlast|[v Hv]]; [|discriminate].
    rewrite Hlast, Z.eqb_refl. reflexivity.
  - destruct fuel as [|fuel]; [lia|]. cbn [retryLoop seq flat_map].
    replace (Z.of_nat calls <=? R) with true by (symmetry; apply Z.leb_le; lia).
    destruct (Hfail 0%nat ltac:(lia)) as [e He].
    rewrite Nat.add_0_r in He. rewrite He.
    replace (Z.of_nat calls =? R) with false by (symmetry; apply Z.eqb_neq; lia).
    replace (Z.of_nat calls + 1) with (Z.of_nat (S calls)) by lia.
    rewrite (@IH fuel (S calls) (Some e)).
    + replace (S calls + k)%nat with (calls + S k)%nat by lia. reflexivity.
    + lia.
    + lia.
    + intros j Hj. replace (S calls + j)%nat with (calls + S j)%nat by lia.
      apply Hfail. lia.
    + replace (S calls + k)%nat with (calls + S k)%nat by lia. exact Hstop.
Qed.

(** The call at which a run stops: the first success among calls
    [0 .. n], or call [n] when there is none. *)
Lemma stopping_call (n : nat) :
  exists k, (k <= n)%nat /\
    (forall j, (j < k)%nat -> fails operation j) /\
    (k = n \/ exists v, operation k = Fulfilled v).
Proof.
  induction n as [|n [k (Hk & Hbefore & Hstop)]].
  - exists 0%nat. split; [lia|]. split; [intros j Hj; lia | now left].
  - destruct Hstop as [->|Hv].
    + destruct (operation n) as [v|e] eqn:Hop.
      * exists n. split; [lia|]. split; [exact Hbefore|right; now exists v].
      * exists (S n). split; [lia|]. split; [|now left].
        intros j Hj. destruct (Nat.eq_dec j n) as [->|Hne].
        -- now exists e.
        -- apply Hbefore. lia.
    + exists k. split; [lia|]. split; [exact Hbefore|now right].
Qed.

(** Every run of [retry] with [maxRetries >= 0] ends, and its trace is
    a [schedule]. *)
Lemma retry_run (R D : Z) (fuel : nat) :
  0 <= R -> (Z.to_nat R < fuel)%nat ->
  exists k, (k <= Z.to_nat R)%nat /\
    (forall j, (j < k)%nat -> fails operation j) /\
    (k = Z.to_nat R \/ exists v, operation k = Fulfilled v) /\
    retry operation fuel R D = Some (surface (operation k), schedule D k).
Proof.
  intros HR Hfuel.
  destruct (stopping_call (Z.to_nat R)) as [k (Hk & Hbefore & Hstop)].
  exists k. split; [exact Hk|]. split; [exact Hbefore|]. split; [exact Hstop|].
  unfold retry, schedule.
  apply (@retryLoop_run R D k fuel 0%nat None);
    cbn [Nat.add]; try assumption; try lia.
  destruct Hstop as [->|Hv]; [left; lia|now right].
Qed.

(** Two stopping calls of the same operation coincide. *)
Lemma stopping_call_unique (n k k' : nat) :
  (forall j, (j < k)%nat -> fails operation j) ->
  (k = n \/ exists v, operation k = Fulfilled v) ->
  (k' <= n)%nat ->
  (forall j, (j < k')%nat -> fails operation j) ->
  (k' = n \/ exists v, operation k' = Fulfilled v) ->
  (k <= n)%nat ->
  k = k'.
Proof.
  intros Hb Hs Hk' Hb' Hs' Hk.
  destruct (Nat.lt_trichotomy k k') as [Hlt|[Heq|Hgt]]; [|exact Heq|].
  - destruct (Hb' k Hlt) as [e He].
    destruct Hs as [->|[v Hv]]; [lia|congruence].
  - destruct (Hb k' Hgt) as [e He].
    destruct Hs' as [->|[v Hv]]; [lia|congruence].
Qed.

End RetryFacts.

Section RetryClaims.

Import Retry.
Local Open Scope Z_scope.
Local Open Scope string_scope.

(** C2.  For every operation and every [maxRetries = R >= 0], [retry]
    returns, having called the operation at most [R + 1] times; when call
    [k] is the first one to succeed, [retry] returns its value and call
    [k] is the last thing it does ([k + 1] calls in all); when every call
    fails, exactly [R + 1] calls are made. *)
Theorem retry_attempts (E T : Type) (operation : nat -> settled E T)
    (R D : Z) (fuel : nat) :
  0 <= R -> (Z.to_nat R < fuel)%nat ->
  exists res tr,
    retry operation fuel R D = Some (res, tr) /\
    (invocations tr <= Z.to_nat R + 1)%nat /\
    (forall k v,
        (k <= Z.to_nat R)%nat ->
        (forall j, (j < k)%nat -> fails operation j) ->
        operation k = Fulfilled v ->
        res = Fulfilled v /\ invocations tr = (k + 1)%nat /\
        last tr (Sleep 0) = Invoke k) /\
    ((forall j, (j <= Z.to_nat R)%nat -> fails operation j) ->
     invocations tr = (Z.to_nat R + 1)%nat).
Proof.
  intros HR Hfuel.
  destruct (retry_run operation D HR Hfuel) as [n (Hn & Hbefore & Hstop & Hrun)].
  exists (surface (operation n)), (schedule D n).
  split; [exact Hrun|]. rewrite invocations_schedule.
  split; [lia|]. split.
  - intros k v Hk Hfailk Hv.
    assert (n = k) as ->.
    { apply (@stopping_call_unique E T operation (Z.to_nat R) n k);
        try assumption.
      right. now exists v. }
    rewrite Hv, last_schedule. cbn. repeat split; lia.
  - intros Hall. destruct Hstop as [->|[v Hv]]; [lia|].
    destruct (Hall n Hn) as [e He]. congruence.
Qed.

Lemma retry_attempts_witness :
  exists tr,
    retry (fun n => if (n <? 2)%nat then Rejected (Err "down") else Fulfilled 7%nat)
          4 3 1000 = Some (Fulfilled 7%nat, tr) /\
    invocations tr = 3%nat.
Proof.
  destruct (@retry_attempts jsError nat
              (fun n => if (n <? 2)%nat then Rejected (Err "down") else Fulfilled 7%nat)
              3 1000 4%nat ltac:(lia) ltac:(cbn; lia))
    as [res [tr (Hrun & _ & Hfirst & _)]].
  destruct (Hfirst 2%nat 7%nat) as (Hres & Hcount & _).
  - cbn. lia.
  - intros j Hj. exists (Err "down").
    destruct j as [|[|j]]; [reflexivity|reflexivity|lia].
  - reflexivity.
  - exists tr. rewrite <- Hres. split; [exact Hrun|exact Hcount].
Defined.

(** C3, as the code has it.  For every [baseDelay = D], a run of
    [retry] is: attempt 0, sleep, attempt 1, sleep, ..., attempt [n], and
    nothing after attempt [n], so no sleep follows the last attempt.  The
    sleep between attempt [i] and attempt [i + 1] is the one of
    [Utils.sleep(D * 2^i)] : it lasts [D * 2^i] exactly when that number
    lies between 1 and [TIMEOUT_MAX], and 1 time unit when it does not.
    When every attempt fails, [n = maxRetries]; with [maxRetries = 3] and
    [D = 1000] the sleeps are 1000, 2000, 4000. *)
Theorem retry_backoff (E T : Type) (operation : nat -> settled E T)
    (R D : Z) (fuel : nat) :
  0 <= R -> (Z.to_nat R < fuel)%nat ->
  (exists res tr n,
      retry operation fuel R D = Some (res, tr) /\
      (n <= Z.to_nat R)%nat /\
      tr = schedule D n /\
      delays tr = map (fun i => sleep (D * 2 ^ Z.of_nat i)) (seq 0 n) /\
      (forall i, (i < n)%nat ->
         (1 <= D * 2 ^ Z.of_nat i <= Timer.TIMEOUT_MAX ->
          nth_error (delays tr) i = Some (D * 2 ^ Z.of_nat i)) /\
         (~ 1 <= D * 2 ^ Z.of_nat i <= Timer.TIMEOUT_MAX ->
          nth_error (delays tr) i = Some 1)) /\
      last tr (Sleep 0) = Invoke n /\
      ((forall j, (j <= Z.to_nat R)%nat -> fails operation j) -> n = Z.to_nat R)) /\
  (forall e : E,
      option_map (fun r => delays (snd r))
        (retry (fun _ => Rejected e : settled E T) 4 3 1000)
      = Some [1000; 2000; 4000]).
Proof.
  intros HR Hfuel. split; [|reflexivity].
  destruct (retry_run operation D HR Hfuel) as [n (Hn & Hbefore & Hstop & Hrun)].
  exists (surface (operation n)), (schedule D n), n.
  split; [exact Hrun|]. split; [exact Hn|]. split; [reflexivity|].
  split; [apply delays_schedule|]. split; [|split; [apply last_schedule|]].
  - intros i Hi. rewrite delays_schedule, nth_error_map, nth_error_seq.
    replace (i <? n)%nat with true by (symmetry; apply Nat.ltb_lt; lia).
    cbn [Nat.add option_map]. unfold sleep, Timer.timerDelay.
    split; intro Hrange.
    + replace (1 <=? D * 2 ^ Z.of_nat i)%Z with true
        by (symmetry; apply Z.leb_le; lia).
      replace (D * 2 ^ Z.of_nat i <=? Timer.TIMEOUT_MAX)%Z with true
        by (symmetry; apply Z.leb_le; lia).
      reflexivity.
    + destruct (Z.leb_spec 1 (D * 2 ^ Z.of_nat i));
        destruct (Z.leb_spec (D * 2 ^ Z.of_nat i) Timer.TIMEOUT_MAX);
        cbn [andb]; try reflexivity.
      exfalso. apply Hrange. lia.
  - intros Hall. destruct Hstop as [->|[v Hv]]; [reflexivity|].
    destruct (Hall n Hn) as [e He]. congruence.
Qed.

Lemma retry_backoff_witness :
  exists res tr,
    retry (fun _ => Rejected (Err "down") : settled jsError nat) 3 2 250
    = Some (res, tr) /\
    delays tr = [250; 500].
Proof.
  destruct (@retry_backoff jsError nat (fun _ => Rejected (Err "down"))
              2 250 3%nat ltac:(lia) ltac:(cbn; lia))
    as [[res [tr [n (Hrun & Hn & Htr & Hdelays & _ & Hlast & Hall)]]] _].
  exists res, tr. split; [exact Hrun|].
  rewrite Hdelays, (Hall (fun j _ => ex_intro _ (Err "down") eq_refl)).
  reflexivity.
Defined.

(** C3 as stated fails: with [baseDelay = 3000000000] the delay between
    attempt 0 and attempt 1 is not [3000000000 * 2^0] but 1 time unit,
    since [setTimeout] replaces a delay above [TIMEOUT_MAX] by 1; with
    [baseDelay = 0] it is 1 time unit as well, not 0; and with
    [baseDelay = 1000] the delay between attempt 22 and attempt 23 is
    1 time unit, not [1000 * 2^22]. *)
Lemma retry_backoff_is_capped :
  retry (fun _ => Rejected (Err "down") : settled jsError nat) 2 1 3000000000
  = Some (Rejected (Some (Err "down")), [Invoke 0; Sleep 1; Invoke 1]) /\
  option_map (fun r => delays (snd r))
    (retry (fun _ => Rejected (Err "down") : settled jsError nat) 2 1 3000000000)
  <> Some [3000000000 * 2 ^ 0] /\
  option_map (fun r => delays (snd r))
    (retry (fun _ => Rejected (Err "down") : settled jsError nat) 2 1 0)
  = Some [1] /\
  option_map (fun r => nth_error (delays (snd r)) 22)
    (retry (fun _ => Rejected (Err "down") : settled jsError nat) 25 23 1000)
  = Some (Some 1).
Proof.
  split; [reflexivity|]. split; [|split; reflexivity].
  vm_compute. discriminate.
Qed.

(** C5, as the code has it.  When the operation fails on all
    [maxRetries + 1] attempts, [retry] fails with the failure of the last
    attempt itself, not wrapped in anything; the failures of earlier
    attempts do not show in the result; and whenever [retry] fails, all
    [maxRetries + 1] attempts have been made and the failure is that of
    the last one. *)
Theorem retry_surfaces_last_failure (E T : Type) (operation : nat -> settled E T)
    (R D : Z) (fuel : nat) :
  0 <= R -> (Z.to_nat R < fuel)%nat ->
  (forall eLast,
      (forall j, (j <= Z.to_nat R)%nat -> fails operation j) ->
      operation (Z.to_nat R) = Rejected eLast ->
      exists tr, retry operation fuel R D = Some (Rejected (Some eLast), tr) /\
                 invocations tr = (Z.to_nat R + 1)%nat) /\
  (forall thrown tr,
      retry operation fuel R D = Some (Rejected thrown, tr) ->
      invocations tr = (Z.to_nat R + 1)%nat /\
      exists e, operation (Z.to_nat R) = Rejected e /\ thrown = Some e).
Proof.
  intros HR Hfuel.
  destruct (retry_run operation D HR Hfuel) as [n (Hn & Hbefore & Hstop & Hrun)].
  split.
  - intros eLast Hall Hlast.
    assert (n = Z.to_nat R) as ->.
    { destruct Hstop as [->|[v Hv]]; [reflexivity|].
      destruct (Hall n Hn) as [e He]. congruence. }
    exists (schedule D (Z.to_nat R)). rewrite Hrun, Hlast, invocations_schedule.
    split; [reflexivity|lia].
  - intros thrown tr Hrej. rewrite Hrun in Hrej.
    destruct (operation n) as [v|e] eqn:Hop; [discriminate|].
    cbn in Hrej. injection Hrej as <- <-.
    assert (n = Z.to_nat R) as ->.
    { destruct Hstop as [->|[v Hv]]; [reflexivity|congruence]. }
    rewrite invocations_schedule. split; [lia|]. now exists e.
Qed.

Lemma retry_surfaces_last_failure_witness :
  exists tr,
    retry (fun n => Rejected (Err (if (n =? 2)%nat then "last" else "early"))
                    : settled jsError nat) 3 2 1000
    = Some (Rejected (Some (Err "last")), tr) /\
    invocations tr = 3%nat.
Proof.
  destruct (@retry_surfaces_last_failure jsError nat
              (fun n => Rejected (Err (if (n =? 2)%nat then "last" else "early")))
              2 1000 3%nat ltac:(lia) ltac:(cbn; lia)) as [Hlast _].
  apply (Hlast (Err "last")).
  - intros j _. eexists. reflexivity.
  - reflexivity.
Defined.

(** C5 as stated fails: the operation below fails on all three attempts
    of [maxRetries = 2], and what [retry] throws is the underlying
    [Err "boom"], not an [OperationFailed] wrapping it. *)
Lemma retry_does_not_wrap :
  retry (fun _ => Rejected (Err "boom") : settled jsError nat) 3 2 1000
  = Some (Rejected (Some (Err "boom")), schedule 1000 2) /\
  ~ (exists cause tr,
        retry (fun _ => Rejected (Err "boom") : settled jsError nat) 3 2 1000
        = Some (Rejected (Some (OperationFailed cause)), tr)).
Proof.
  split; [reflexivity|].
  intros [cause [tr H]]. vm_compute in H. discriminate.
Qed.

End RetryClaims.

(** ** batchProcess *)

Section SliceFacts.

Import Batch.
Local Open Scope Z_scope.

Variable A : Type.

Lemma in_firstn (n : nat) (l : list A) (x : A) : In x (firstn n l) -> In x l.
Proof.
  intro H. rewrite <- (firstn_skipn n l). apply in_or_app. now left.
Qed.

Lemma in_skipn (n : nat) (l : list A) (x : A) : In x (skipn n l) -> In x l.
Proof.
  intro H. rewrite <- (firstn_skipn n l). apply in_or_app. now right.
Qed.

Lemma in_slice (l : list A) (from to : Z) (x : A) :
  In x (slice l from to) -> In x l.
Proof.
  unfold slice. intro H. apply in_firstn in H. now apply in_skipn in H.
Qed.

Lemma firstn_add (n m : nat) (l : list A) :
  firstn (n + m) l = firstn n l ++ firstn m (skipn n l).
Proof.
  revert l. induction n as [|n IH]; intro l; [reflexivity|].
  destruct l as [|x l]; cbn [Nat.add firstn skipn app].
  - now rewrite firstn_nil.
  - now rewrite IH.
Qed.

(** Inside the array and with a positive width, [slice] is the next
    [concurrency] items, or what is left of the array. *)
Lemma slice_chunk (l : list A) (i c : Z) :
  0 <= i -> 1 <= c -> i < Z.of_nat (List.length l) ->
  slice l i (i + c) = firstn (Z.to_nat c) (skipn (Z.to_nat i) l).
Proof.
  intros Hi Hc Hlt. unfold slice, relativeIndex.
  replace (i <? 0) with false by (symmetry; apply Z.ltb_ge; lia).
  replace (i + c <? 0) with false by (symmetry; apply Z.ltb_ge; lia).
  rewrite (Z.min_l i) by lia.
  destruct (Z.le_gt_cases (i + c) (Z.of_nat (List.length l))) as [Hin|Hout].
  - rewrite Z.min_l by lia. f_equal. lia.
  - rewrite Z.min_r by lia.
    rewrite !firstn_all2; try reflexivity; rewrite length_skipn; lia.
Qed.

Lemma slice_empty (l : list A) : slice l 0 0 = [].
Proof.
  unfold slice, relativeIndex. cbn [Z.ltb Z.compare].
  rewrite Z.min_l by lia. reflexivity.
Qed.

(** With a width that is not positive, only the slice taken at index 0
    can hold anything: the items but the last [- c]. *)
Lemma slice_nonpositive (l : list A) (i c : Z) :
  c <= 0 -> i <= 0 ->
  (List.length (slice l i (i + c))
   <= Z.to_nat (Z.of_nat (List.length l) + c))%nat.
Proof.
  intros Hc Hi. unfold slice, relativeIndex.
  rewrite length_firstn, length_skipn.
  destruct (Z.ltb_spec i 0); destruct (Z.ltb_spec (i + c) 0); lia.
Qed.

End SliceFacts.

Section BatchFacts.

Import Batch.
Local Open Scope Z_scope.

Variables T R E : Type.
Variable processor : T -> invocation R E.

Lemma fulfilment_not_failure (c : invocation R E) (v : R) :
  fulfilment c = Some v -> failure c = None.
Proof.
  destruct c as [e'|[t [w|e']|]]; cbn; congruence.
Qed.

Lemma succeeds_not_failure (x : T) :
  succeeds processor x -> failure (processor x) = None.
Proof. intros [v Hv]. exact (fulfilment_not_failure _ Hv). Qed.

Lemma succeeds_settles (x : T) : succeeds processor x -> settles processor x.
Proof. intros [v Hv] Hp. rewrite Hp in Hv. discriminate. Qed.


(** *** One chunk *)

Lemma mapProcessor_throw (batch invoked : list T) (e : E) :
  mapProcessor processor batch = (invoked, inl e) ->
  exists j x, nth_error batch j = Some x /\ processor x = Throws e /\
              invoked = firstn (S j) batch.
Proof.
  revert invoked. induction batch as [|item rest IH]; intros invoked H.
  - discriminate.
  - cbn [mapProcessor] in H. destruct (processor item) as [e'|p] eqn:Hp.
    + injection H as <- <-. exists 0%nat, item. cbn. now rewrite Hp.
    + destruct (mapProcessor processor rest) as [inv [e'|ps]] eqn:Hrest;
        [|discriminate].
      injection H as <- <-.
      destruct (IH inv eq_refl) as [j [x (Hj & Hx & Hinv)]].
      exists (S j), x. split; [exact Hj|]. split; [exact Hx|].
      rewrite Hinv. reflexivity.
Qed.

Lemma mapProcessor_promises (batch invoked : list T) (ps : list (promise R E)) :
  mapProcessor processor batch = (invoked, inr ps) ->
  invoked = batch /\ map processor batch = map Returns ps.
Proof.
  revert invoked ps. induction batch as [|item rest IH]; intros invoked ps H.
  - injection H as <- <-. now split.
  - cbn [mapProcessor] in H. destruct (processor item) as [e'|p] eqn:Hp;
      [discriminate|].
    destruct (mapProcessor processor rest) as [inv [e'|qs]] eqn:Hrest;
      [discriminate|].
    injection H as <- <-. destruct (IH inv qs eq_refl) as [-> Hmap].
    cbn [map]. now rewrite Hp, Hmap.
Qed.

Lemma firstRejection_origin (ps : list (promise R E)) (t : nat) (e : E) :
  firstRejection ps = Some (t, e) ->
  exists j after, nth_error ps j = Some (Settles after (Rejected e)).
Proof.
  revert t e. induction ps as [|p rest IH]; intros t e H; [discriminate|].
  cbn [firstRejection] in H.
  destruct p as [after [v|e0]|].
  - destruct (IH t e H) as [j [a Hq]]. now exists (S j), a.
  - destruct (firstRejection rest) as [[t' e']|].
    + destruct (t' <? after)%nat.
      * injection H as <- <-. destruct (IH t' e' eq_refl) as [j [a Hq]].
        now exists (S j), a.
      * injection H as <- <-. now exists 0%nat, after.
    + injection H as <- <-. now exists 0%nat, after.
  - destruct (IH t e H) as [j [a Hq]]. now exists (S j), a.
Qed.

Lemma firstRejection_none (ps : list (promise R E)) :
  firstRejection ps = None ->
  forall p, In p ps -> failure (Returns p) = None.
Proof.
  induction ps as [|p rest IH]; intros H q Hq; [destruct Hq|].
  cbn [firstRejection] in H.
  destruct p as [after [v|e0]|].
  - destruct Hq as [<-|Hq]; [reflexivity|now apply IH].
  - destruct (firstRejection rest) as [[t' e']|]; [|discriminate].
    destruct (t' <? after)%nat; discriminate.
  - destruct Hq as [<-|Hq]; [reflexivity|now apply IH].
Qed.

Lemma values_fulfilled (ps : list (promise R E)) :
  firstRejection ps = None -> existsb (@isPending R E) ps = false ->
  map (fun p => fulfilment (Returns p)) ps = map Some (values ps).
Proof.
  induction ps as [|p rest IH]; intros H Hp; [reflexivity|].
  cbn [firstRejection existsb] in H, Hp.
  destruct p as [after [v|e0]|].
  - cbn [map values fulfilment isPending orb] in *. now rewrite IH.
  - destruct (firstRejection rest) as [[t' e']|]; [|discriminate].
    destruct (t' <? after)%nat; discriminate.
  - discriminate.
Qed.

Lemma chunk_cases (batch : list T) :
  chunkEnd processor batch (mapProcessor processor batch).
Proof.
  destruct (mapProcessor processor batch) as [invoked [e|ps]] eqn:Hmap.
  - destruct (mapProcessor_throw _ Hmap) as [j [x (Hj & Hx & Hinv)]].
    eapply ChunkThrew; [exact Hj|now rewrite Hx|exact Hinv].
  - destruct (mapProcessor_promises _ Hmap) as [-> Hps].
    assert (forall y, In y batch -> exists p, In p ps /\ processor y = Returns p)
      as Hfrom.
    { intros y Hy. apply (in_map processor) in Hy. rewrite Hps in Hy.
      apply in_map_iff in Hy. destruct Hy as [p [Hp Hin]]. now exists p. }
    destruct (firstRejection ps) as [[t e]|] eqn:Hfirst.
    + destruct (firstRejection_origin _ Hfirst) as [j [after Hj]].
      assert (nth_error (map processor batch) j
              = Some (Returns (Settles after (Rejected e)))) as Hnth.
      { rewrite Hps, nth_error_map, Hj. reflexivity. }
      rewrite nth_error_map in Hnth.
      destruct (nth_error batch j) as [x|] eqn:Hx; [|discriminate].
      injection Hnth as Hnth.
      eapply ChunkRejected; [exact Hx| |].
      * rewrite Hnth. reflexivity.
      * unfold promiseAll. now rewrite Hfirst.
    + destruct (existsb (@isPending R E) ps) eqn:Hpend.
      * pose proof Hpend as Hpend'.
        apply existsb_exists in Hpend. destruct Hpend as [p [Hin Hp]].
        destruct p as [after o|]; [discriminate|].
        apply (in_map Returns) in Hin. rewrite <- Hps in Hin.
        apply in_map_iff in Hin. destruct Hin as [x [Hx Hin]].
        eapply ChunkStuck; [exact Hin|exact Hx| |].
        -- intros y Hy. destruct (Hfrom y Hy) as [q [Hq ->]].
           now apply (firstRejection_none _ Hfirst).
        -- unfold promiseAll. now rewrite Hfirst, Hpend'.
      * pose proof (values_fulfilled _ Hfirst Hpend) as Hall.
        assert (map (fun x => fulfilment (processor x)) batch = map Some (values ps))
          as Hvals.
        { rewrite <- (map_map processor (@fulfilment R E)), Hps, map_map.
          exact Hall. }
        apply ChunkDone.
        -- apply Forall_forall. intros x Hin.
           apply (in_map (fun x => fulfilment (processor x))) in Hin.
           rewrite Hvals in Hin. apply in_map_iff in Hin.
           destruct Hin as [v [Hv _]]. now exists v.
        -- unfold promiseAll. now rewrite Hfirst, Hpend.
        -- now symmetry.
Qed.

End BatchFacts.

Section BatchLoopFacts.

Import Batch.
Local Open Scope Z_scope.

Variables T R E : Type.
Variable processor : T -> invocation R E.
Variable maxArguments : N.
Variable rangeError : E.

Lemma values_length (batch : list T) (ps : list (promise R E)) :
  map Some (values ps) = map (fun x => fulfilment (processor x)) batch ->
  List.length (values ps) = List.length batch.
Proof.
  intro H. apply (f_equal (@List.length (option R))) in H.
  now rewrite !length_map in H.
Qed.

(** A chunk on which the processor succeeds. *)
Lemma chunk_of_successes (batch : list T) :
  Forall (succeeds processor) batch ->
  exists ps, mapProcessor processor batch = (batch, inr ps) /\
             promiseAll ps = Some (Fulfilled (values ps)) /\
             map Some (values ps) = map (fun x => fulfilment (processor x)) batch /\
             List.length (values ps) = List.length batch.
Proof.
  intro Hok. rewrite Forall_forall in Hok.
  pose proof (chunk_cases processor batch) as Hend.
  inversion Hend as [j x e inv Hj Hf Hinv Heq | j x e ps Hj Hf Hrej Heq
                     | x ps Hin Hx Hnone Hstuck Heq
                     | ps Hdone Hall Hvals Heq].
  - apply nth_error_In, Hok, succeeds_not_failure in Hj. congruence.
  - apply nth_error_In, Hok, succeeds_not_failure in Hj. congruence.
  - apply Hok, succeeds_settles in Hin. now destruct Hin.
  - exists ps. split; [reflexivity|]. split; [exact Hall|].
    split; [exact Hvals|]. now apply values_length.
Qed.

(** *** The loop on chunks *)

Lemma batchLoop_chunks (items : list T) (C : Z) :
  1 <= C ->
  forall (fuel : nat) (i : Z) (results : list R),
    0 <= i ->
    batchLoop processor maxArguments rangeError fuel items C i results
    = chunkLoop processor maxArguments rangeError fuel (Z.to_nat C)
        (skipn (Z.to_nat i) items) results.
Proof.
  intros HC. induction fuel as [|fuel IH]; intros i results Hi; [reflexivity|].
  cbn [batchLoop chunkLoop].
  destruct (i <? Z.of_nat (List.length items)) eqn:Hlt.
  - apply Z.ltb_lt in Hlt. rewrite slice_chunk by assumption.
    assert (skipn (Z.to_nat C) (skipn (Z.to_nat i) items)
            = skipn (Z.to_nat (i + C)) items) as Hskip.
    { rewrite skipn_skipn. f_equal. lia. }
    destruct (skipn (Z.to_nat i) items) as [|x rest] eqn:Hrest.
    { apply (f_equal (@List.length T)) in Hrest. rewrite length_skipn in Hrest.
      cbn in Hrest. lia. }
    destruct (mapProcessor processor (firstn (Z.to_nat C) (x :: rest)))
      as [invoked [e|ps]]; [reflexivity|].
    destruct (promiseAll ps) as [[batchResults|e]|]; try reflexivity.
    destruct (maxArguments <? N.of_nat (List.length batchResults))%N; [reflexivity|].
    rewrite IH by lia. rewrite <- Hskip. reflexivity.
  - apply Z.ltb_ge in Hlt. rewrite skipn_all2 by lia. reflexivity.
Qed.





End BatchLoopFacts.

Section BatchTermination.

Import Batch.
Local Open Scope Z_scope.

Variables T R E : Type.
Variable processor : T -> invocation R E.
Variable maxArguments : N.
Variable rangeError : E.

(** With a chunk size [c >= 1] every round consumes [c] items, or all
    that is left: the loop ends within [ceil (length rest / c) + 1]
    rounds. *)
Lemma chunkLoop_total (c : nat) :
  (1 <= c)%nat ->
  forall (fuel : nat) (rest : list T) (results : list R),
    ((List.length rest + c - 1) / c < fuel)%nat ->
    exists r, snd (chunkLoop processor maxArguments rangeError fuel c rest results)
              = Some r.
Proof.
  intros Hc. induction fuel as [|fuel IH]; intros rest results Hfuel; [lia|].
  cbn [chunkLoop]. destruct rest as [|x rest]; [now eexists|].
  destruct (mapProcessor processor (firstn c (x :: rest))) as [invoked [e|ps]];
    [now eexists|].
  destruct (promiseAll ps) as [[batchResults|e]|]; try (now eexists).
  destruct (maxArguments <? N.of_nat (List.length batchResults))%N; [now eexists|].
  destruct (IH (skipn c (x :: rest)) (results ++ batchResults)) as [r Hr].
  - rewrite length_skipn.
    remember (List.length (x :: rest)) as n eqn:Hn.
    assert (1 <= n)%nat as Hpos by (subst n; cbn; lia).
    destruct (Nat.le_gt_cases c n) as [Hfull|Hpartial].
    + replace (n + c - 1)%nat with ((n - c + c - 1) + 1 * c)%nat in Hfuel by lia.
      rewrite Nat.div_add in Hfuel by lia. lia.
    + replace (n - c)%nat with 0%nat by lia.
      rewrite Nat.div_small by lia.
      assert (1 <= (n + c - 1) / c)%nat; [|lia].
      replace (n + c - 1)%nat with ((n - 1) + 1 * c)%nat by lia.
      rewrite Nat.div_add by lia. lia.
  - destruct (chunkLoop processor maxArguments rangeError fuel c
                (skipn c (x :: rest)) (results ++ batchResults)) as [later r'].
    now exists r.
Qed.

(** A call that waits for ever waits for a promise of the processor
    that never settles. *)
Lemma batchLoop_awaiting (items : list T) (C : Z) :
  forall (fuel : nat) (i : Z) (results : list R),
    snd (batchLoop processor maxArguments rangeError fuel items C i results)
    = Some Awaiting ->
    exists x, In x items /\ processor x = Returns Pending.
Proof.
  induction fuel as [|fuel IH]; intros i results H; [discriminate|].
  cbn [batchLoop] in H.
  destruct (i <? Z.of_nat (List.length items)); [|discriminate].
  pose proof (chunk_cases processor (slice items i (i + C))) as Hend.
  inversion Hend as [j x e' invoked Hj Hf Hinv Heq | j x e' ps Hj Hf Hall Heq
                     | x ps Hin Hx Hnone Hstuck Heq
                     | ps Hdone Hall Hvals Heq];
    rewrite <- Heq in H.
  - discriminate.
  - rewrite Hall in H. discriminate.
  - exists x. split; [now apply in_slice in Hin|exact Hx].
  - rewrite Hall in H.
    destruct (maxArguments <? N.of_nat (List.length (values ps)))%N; [discriminate|].
    destruct (batchLoop processor maxArguments rangeError fuel items C (i + C)
                (results ++ values ps)) as [later r] eqn:Hrec.
    apply (IH (i + C) (results ++ values ps)). now rewrite Hrec.
Qed.

(** A failure of the call is the failure of some item, or the
    [RangeError] of [push]. *)
Lemma batchLoop_rejection (items : list T) (C : Z) :
  forall (fuel : nat) (i : Z) (results : list R) (e : E),
    snd (batchLoop processor maxArguments rangeError fuel items C i results)
    = Some (Settled (Rejected e)) ->
    (exists x, In x items /\ failure (processor x) = Some e) \/ e = rangeError.
Proof.
  induction fuel as [|fuel IH]; intros i results e H; [discriminate|].
  cbn [batchLoop] in H.
  destruct (i <? Z.of_nat (List.length items)); [|discriminate].
  pose proof (chunk_cases processor (slice items i (i + C))) as Hend.
  inversion Hend as [j x e' invoked Hj Hf Hinv Heq | j x e' ps Hj Hf Hall Heq
                     | x ps Hin Hx Hnone Hstuck Heq
                     | ps Hdone Hall Hvals Heq];
    rewrite <- Heq in H.
  - injection H as <-. left. exists x. split; [|exact Hf].
    apply nth_error_In in Hj. now apply in_slice in Hj.
  - rewrite Hall in H. injection H as <-. left. exists x. split; [|exact Hf].
    apply nth_error_In in Hj. now apply in_slice in Hj.
  - rewrite Hstuck in H. discriminate.
  - rewrite Hall in H.
    destruct (maxArguments <? N.of_nat (List.length (values ps)))%N.
    + injection H as <-. now right.
    + destruct (batchLoop processor maxArguments rangeError fuel items C (i + C)
                  (results ++ values ps)) as [later r] eqn:Hrec.
      apply (IH (i + C) (results ++ values ps) e). now rewrite Hrec.
Qed.

(** *** [concurrency <= 0] *)

Lemma batchLoop_zero (items : list T) :
  items <> [] ->
  forall (fuel : nat) (results : list R),
    batchLoop processor maxArguments rangeError fuel items 0 0 results = ([], None).
Proof.
  intros Hne. induction fuel as [|fuel IH]; intro results; [reflexivity|].
  cbn [batchLoop Z.add].
  replace (0 <? Z.of_nat (List.length items)) with true.
  - rewrite slice_empty.
    cbn [mapProcessor promiseAll firstRejection values existsb List.length].
    replace (maxArguments <? N.of_nat (0))%N with false
      by (symmetry; apply N.ltb_ge; lia).
    now rewrite IH.
  - symmetry. apply Z.ltb_lt. destruct items; [congruence|cbn; lia].
Qed.

Lemma batchLoop_never_returns (items : list T) (C : Z) :
  C <= 0 -> items <> [] ->
  forall (fuel : nat) (i : Z) (results rs : list R),
    i <= 0 ->
    snd (batchLoop processor maxArguments rangeError fuel items C i results)
    <> Some (Settled (Fulfilled rs)).
Proof.
  intros HC Hne. induction fuel as [|fuel IH]; intros i results rs Hi;
    [discriminate|].
  cbn [batchLoop].
  replace (i <? Z.of_nat (List.length items)) with true.
  - destruct (mapProcessor processor (slice items i (i + C))) as [invoked [e|ps]];
      [discriminate|].
    destruct (promiseAll ps) as [[batchResults|e]|]; try discriminate.
    destruct (maxArguments <? N.of_nat (List.length batchResults))%N; [discriminate|].
    specialize (IH (i + C) (results ++ batchResults) rs ltac:(lia)).
    destruct (batchLoop processor maxArguments rangeError fuel items C (i + C)
                (results ++ batchResults)).
    exact IH.
  - symmetry. apply Z.ltb_lt. destruct items; [congruence|cbn; lia].
Qed.

Lemma batchLoop_diverges (items : list T) (C : Z) :
  C <= 0 -> items <> [] ->
  (forall x, In x items -> succeeds processor x) ->
  (N.of_nat (Z.to_nat (Z.of_nat (List.length items) + C)) <= maxArguments)%N ->
  forall (fuel : nat) (i : Z) (results : list R),
    i <= 0 ->
    snd (batchLoop processor maxArguments rangeError fuel items C i results) = None.
Proof.
  intros HC Hne Hok Hmax. induction fuel as [|fuel IH]; intros i results Hi;
    [reflexivity|].
  cbn [batchLoop].
  replace (i <? Z.of_nat (List.length items)) with true.
  - assert (Forall (succeeds processor) (slice items i (i + C))) as Hhead.
    { apply Forall_forall. intros x Hx. apply Hok. now apply in_slice in Hx. }
    destruct (chunk_of_successes Hhead) as [ps (-> & -> & Hvals & Hlen)].
    pose proof (slice_nonpositive items HC Hi) as Hslice.
    replace (maxArguments <? N.of_nat (List.length (values ps)))%N with false
      by (symmetry; apply N.ltb_ge; lia).
    specialize (IH (i + C) (results ++ values ps) ltac:(lia)).
    destruct (batchLoop processor maxArguments rangeError fuel items C (i + C)
                (results ++ values ps)).
    exact IH.
  - symmetry. apply Z.ltb_lt. destruct items; [congruence|cbn; lia].
Qed.

End BatchTermination.

Section BatchClaims.

Import Batch.
Local Open Scope Z_scope.
Local Open Scope string_scope.







(** C9, as the code has it.  [batchProcess] does not check
    [concurrency] : with [concurrency <= 0] it raises no
    [InvalidArgument] error.  On the empty list it returns the empty list
    with no processor invocation; whenever it fails, it fails with the
    failure of an item's processor invocation or with the [RangeError] of
    [push]; and with [concurrency = 0] the processor is never invoked, and
    on a list that is not empty the call never ends. *)
Theorem batchProcess_nonpositive (T R E : Type) (processor : T -> invocation R E)
    (maxArguments : N) (rangeError : E)
    (items : list T) (C : Z) (fuel : nat) :
  C <= 0 ->
  batchProcess processor maxArguments rangeError (S fuel) [] C
  = ([], Some (Settled (Fulfilled []))) /\
  (forall e, snd (batchProcess processor maxArguments rangeError fuel items C)
             = Some (Settled (Rejected e)) ->
             (exists x, In x items /\ failure (processor x) = Some e) \/
             e = rangeError) /\
  (C = 0 ->
   fst (batchProcess processor maxArguments rangeError fuel items C) = [] /\
   (items <> [] ->
    snd (batchProcess processor maxArguments rangeError fuel items C) = None)).
Proof.
  intros HC. split; [reflexivity|]. split.
  - intros e. apply batchLoop_rejection.
  - intros ->. unfold batchProcess. destruct items as [|x rest].
    + split; [destruct fuel; reflexivity|congruence].
    + rewrite batchLoop_zero by discriminate. now split.
Qed.

Lemma batchProcess_nonpositive_witness :
  fst (batchProcess
         (fun n : nat => Returns (Settles 0 (Fulfilled n : settled jsError nat)))
         125000%N (RangeError "Maximum call stack size exceeded")
         50 [1; 2; 3]%nat 0) = [].
Proof.
  apply (@batchProcess_nonpositive nat nat jsError
           (fun n : nat => Returns (Settles 0 (Fulfilled n)))
           125000%N (RangeError "Maximum call stack size exceeded")
           [1; 2; 3]%nat 0 50%nat ltac:(lia)).
  reflexivity.
Defined.

(** C9 as stated fails: with [concurrency = 0] the call on the empty
    list returns the empty list instead of raising [InvalidArgument], and
    with [concurrency = -1] the processor is invoked on the first item of
    a two-item list. *)
Lemma batchProcess_accepts_nonpositive :
  let processor := fun n : nat =>
    Returns (Settles 0 (Fulfilled n : settled jsError nat)) in
  let rangeError := RangeError "Maximum call stack size exceeded" in
  batchProcess processor 125000%N rangeError 1 [] 0
  = ([], Some (Settled (Fulfilled []))) /\
  (forall text fuel, snd (batchProcess processor 125000%N rangeError fuel [] 0)
                     <> Some (Settled (Rejected (InvalidArgument text)))) /\
  fst (batchProcess processor 125000%N rangeError 3 [1; 2]%nat (-1)) = [1%nat].
Proof.
  cbv zeta. split; [reflexivity|]. split; [|reflexivity].
  intros text [|fuel]; discriminate.
Qed.

(** C10, as the code has it.  With [concurrency = C >= 1] the loop
    index grows by [C] in every round, so that the loop runs no more than
    [ceil (N / C)] rounds on a list of [N] items, whatever the processor.
    The call then ends, with a result or a failure, when every promise
    the processor returns settles; it fails to end only by waiting for a
    promise of the processor that never settles.  With
    [concurrency <= 0] and a non-empty list the loop index never passes
    the list, so the call never returns a result list; it runs for ever
    when [concurrency = 0], or when the processor succeeds on every item
    and the first slice, of [N + C] items, is not longer than the engine
    allows; and if it ends, it ends with the failure of a processor
    invocation or with the [RangeError] of [push]. *)
Theorem batchProcess_termination (T R E : Type) (processor : T -> invocation R E)
    (maxArguments : N) (rangeError : E)
    (items : list T) (C : Z) (fuel : nat) :
  (1 <= C ->
   ((List.length items + Z.to_nat C - 1) / Z.to_nat C < fuel)%nat ->
   (exists r, snd (batchProcess processor maxArguments rangeError fuel items C)
              = Some r) /\
   ((forall x, In x items -> settles processor x) ->
    exists o, snd (batchProcess processor maxArguments rangeError fuel items C)
              = Some (Settled o)) /\
   (snd (batchProcess processor maxArguments rangeError fuel items C)
    = Some Awaiting ->
    exists x, In x items /\ processor x = Returns Pending)) /\
  (C <= 0 -> items <> [] ->
   (forall rs, snd (batchProcess processor maxArguments rangeError fuel items C)
               <> Some (Settled (Fulfilled rs))) /\
   (C = 0 \/
    ((forall x, In x items -> succeeds processor x) /\
     (N.of_nat (Z.to_nat (Z.of_nat (List.length items) + C)) <= maxArguments)%N) ->
    snd (batchProcess processor maxArguments rangeError fuel items C) = None) /\
   (forall e, snd (batchProcess processor maxArguments rangeError fuel items C)
              = Some (Settled (Rejected e)) ->
              (exists x, In x items /\ failure (processor x) = Some e) \/
              e = rangeError)).
Proof.
  split.
  - intros HC Hfuel.
    assert (exists r, snd (batchProcess processor maxArguments rangeError fuel items C)
                      = Some r) as [r Hr].
    { unfold batchProcess.
      rewrite batchLoop_chunks by lia. apply chunkLoop_total; [lia|].
      cbn [Z.to_nat skipn]. exact Hfuel. }
    split; [now exists r|]. split; [|apply batchLoop_awaiting].
    intro Hsettle. destruct r as [o|]; [now exists o|].
    destruct (@batchLoop_awaiting T R E processor maxArguments rangeError
                items C fuel 0 [] Hr) as [x [Hin Hx]].
    destruct (Hsettle x Hin Hx).
  - intros HC Hne. split; [|split].
    + intros rs. apply batchLoop_never_returns; [exact HC|exact Hne|lia].
    + intros [->|[Hok Hmax]].
      * unfold batchProcess. now rewrite batchLoop_zero.
      * apply batchLoop_diverges; try assumption. lia.
    + intros e. apply batchLoop_rejection.
Qed.

Lemma batchProcess_termination_witness :
  (exists o,
      snd (batchProcess
             (fun n : nat => Returns (Settles n (Fulfilled n : settled jsError nat)))
             125000%N (RangeError "Maximum call stack size exceeded")
             3 [1; 2; 3]%nat 2) = Some (Settled o)) /\
  snd (batchProcess
         (fun n : nat => Returns (Settles n (Fulfilled n : settled jsError nat)))
         125000%N (RangeError "Maximum call stack size exceeded")
         40 [1; 2; 3]%nat (-2)) = None.
Proof.
  split.
  - destruct (@batchProcess_termination nat nat jsError
                (fun n : nat => Returns (Settles n (Fulfilled n)))
                125000%N (RangeError "Maximum call stack size exceeded")
                [1; 2; 3]%nat 2 3%nat) as [Hends _].
    destruct (Hends ltac:(lia) ltac:(vm_compute; lia)) as (_ & Hsettled & _).
    apply Hsettled. intros x _. discriminate.
  - destruct (@batchProcess_termination nat nat jsError
                (fun n : nat => Returns (Settles n (Fulfilled n)))
                125000%N (RangeError "Maximum call stack size exceeded")
                [1; 2; 3]%nat (-2) 40%nat) as [_ Hloop].
    destruct (Hloop ltac:(lia) ltac:(discriminate)) as (_ & Hforever & _).
    apply Hforever. right. split.
    + intros x _. now exists x.
    + cbn. lia.
Defined.

(** C10 as stated fails: with [concurrency = -1] on a two-item list the
    first slice holds the first item; its processor invocation is
    rejected and the call ends, in the first round, with that failure.
    And with [concurrency = 1] a promise that never settles keeps the
    call from ever ending. *)
Lemma batchProcess_negative_can_end :
  batchProcess
    (fun _ : nat => Returns (Settles 0 (Rejected (Err "boom") : settled jsError nat)))
    125000%N (RangeError "Maximum call stack size exceeded")
    1 [1; 2]%nat (-1)
  = ([1%nat], Some (Settled (Rejected (Err "boom")))) /\
  (forall fuel,
     snd (batchProcess
            (fun _ : nat => @Returns nat jsError Pending)
            125000%N (RangeError "Maximum call stack size exceeded")
            (S fuel) [1; 2]%nat 1)
     = Some Awaiting).
Proof. split; [reflexivity|]. intro fuel. reflexivity. Qed.

End BatchClaims.

(** ** Timers *)

Section TimerFacts.

Import Timer.
Local Open Scope N_scope.

Lemma ticks_in_range (delay : Z) :
  (1 <= delay <= TIMEOUT_MAX)%Z -> ticks delay = Z.to_N delay.
Proof.
  intro H. unfold ticks, timerDelay.
  replace (1 <=? delay)%Z with true by (symmetry; apply Z.leb_le; lia).
  replace (delay <=? TIMEOUT_MAX)%Z with true by (symmetry; apply Z.leb_le; lia).
  reflexivity.
Qed.

Lemma ticks_out_of_range (delay : Z) :
  ~ (1 <= delay <= TIMEOUT_MAX)%Z -> ticks delay = 1.
Proof.
  intro H. unfold ticks, timerDelay.
  destruct (Z.leb_spec 1 delay); destruct (Z.leb_spec delay TIMEOUT_MAX);
    cbn [andb]; try reflexivity.
  exfalso. apply H. lia.
Qed.

Lemma ticks_positive (delay : Z) : 1 <= ticks delay.
Proof.
  unfold ticks, timerDelay.
  destruct (Z.leb_spec 1 delay); destruct (Z.leb_spec delay TIMEOUT_MAX);
    cbn [andb]; lia.
Qed.

End TimerFacts.

(** ** debounce *)

Section DebounceFacts.

Import EventLoop Debounce.
Local Open Scope N_scope.

Variables Args U : Type.
Variable func : Args -> U -> U * bool.
Variable wait : Z.

Lemma last_cons (A : Type) (l : list A) (a d : A) : last (a :: l) d = last l a.
Proof.
  revert a d. induction l as [|b l IH]; intros a d; [reflexivity|].
  change (last (a :: b :: l) d) with (last (b :: l) d).
  now rewrite (IH b d), (IH b a).
Qed.

(** A call on a coherent state leaves exactly the timer it sets. *)
Lemma call_arms (args : Args) (s : state Args U) :
  coherent s ->
  call wait args s
  = ({| now := now (fst s);
        fresh := S (fresh (fst s));
        pending := [{| handle := fresh (fst s);
                       due := now (fst s) + Timer.ticks wait;
                       action := Later args |}] |},
     {| timeout := Some (fresh (fst s));
        calls := calls (snd s);
        env := env (snd s) |}).
Proof.
  destruct s as [[t0 n q] [h log u]]. unfold coherent. cbn [fst snd].
  cbn [timeout pending]. intros [->|[t [-> ->]]].
  - destruct h; reflexivity.
  - unfold call, clearTimeout, setTimeout, register.
    cbn [timeout pending filter now fresh handle]. rewrite Nat.eqb_refl.
    reflexivity.
Qed.

Lemma call_coherent (args : Args) (s : state Args U) :
  coherent s -> coherent (call wait args s).
Proof.
  intro H. rewrite call_arms by exact H. right.
  exists {| handle := fresh (fst s); due := now (fst s) + Timer.ticks wait;
            action := Later args |}.
  split; reflexivity.
Qed.

Lemma advance_coherent (d : N) (s : state Args U) :
  coherent s -> coherent (advance (run func) d s).
Proof.
  destruct s as [[t0 n q] [h log u]]. unfold coherent. cbn [fst snd].
  cbn [timeout pending]. intros [->|[t [-> ->]]].
  - left. reflexivity.
  - unfold advance. cbn [now pending fire].
    destruct (due t <=? t0 + d).
    + left. reflexivity.
    + right. exists t. split; reflexivity.
Qed.

Lemma exec_coherent (script : list (step Args)) (s : state Args U) :
  coherent s -> coherent (exec func wait script s).
Proof.
  revert s. induction script as [|st script IH]; intros s H; [exact H|].
  cbn [exec fold_left]. apply IH. destruct st as [args|d].
  - now apply call_coherent.
  - now apply advance_coherent.
Qed.

Lemma debounce_coherent (t0 : N) (u : U) : coherent (debounce Args t0 u).
Proof. left. reflexivity. Qed.

(** The state a burst leaves: the timer of its last call, and [func]
    not called. *)
Lemma burst_arms (more : list (N * Args)) :
  forall (first : Args) (s : state Args U),
    coherent s ->
    Forall (fun gc => fst gc < Timer.ticks wait) more ->
    exec func wait (burst first more) s
    = ({| now := now (fst s) + duration more;
          fresh := S (fresh (fst s) + List.length more);
          pending := [{| handle := (fresh (fst s) + List.length more)%nat;
                         due := now (fst s) + duration more + Timer.ticks wait;
                         action := Later (lastArgs first more) |}] |},
       {| timeout := Some (fresh (fst s) + List.length more)%nat;
          calls := calls (snd s);
          env := env (snd s) |}).
Proof.
  induction more as [|[gap args] more IH]; intros first s Hs Hgaps.
  - unfold burst, exec, duration, lastArgs.
    cbn [flat_map fold_left exec1 map fold_right last List.length].
    rewrite call_arms by exact Hs. now rewrite N.add_0_r, !Nat.add_0_r.
  - inversion Hgaps as [|gc more' Hgap Hmore]; subst. cbn [fst] in Hgap.
    change (exec func wait (burst first ((gap, args) :: more)) s)
      with (exec func wait (burst args more)
              (advance (run func) gap (call wait first s))).
    assert (advance (run func) gap (call wait first s)
            = ({| now := now (fst s) + gap;
                  fresh := S (fresh (fst s));
                  pending := [{| handle := fresh (fst s);
                                 due := now (fst s) + Timer.ticks wait;
                                 action := Later first |}] |},
               {| timeout := Some (fresh (fst s));
                  calls := calls (snd s);
                  env := env (snd s) |})) as Hstep.
    { rewrite call_arms by exact Hs. unfold advance. cbn [now pending fire due].
      replace (now (fst s) + Timer.ticks wait <=? now (fst s) + gap) with false
        by (symmetry; apply N.leb_gt; lia).
      reflexivity. }
    rewrite IH.
    + rewrite Hstep. cbn [fst snd now fresh timeout calls env].
      unfold duration, lastArgs. cbn [map fst snd fold_right List.length].
      rewrite last_cons.
      rewrite !Nat.add_succ_r, !N.add_assoc. reflexivity.
    + apply advance_coherent, call_coherent, Hs.
    + exact Hmore.
Qed.

End DebounceFacts.

Section DebounceClaims.

Import EventLoop Debounce.
Local Open Scope N_scope.

(** C7, as the code has it.  The timer [debounce(func, wait)] sets runs
    for [wait] time units when [wait] lies between 1 and [TIMEOUT_MAX],
    and for 1 time unit when it does not; call that time [D].  Take the
    wrapper in any state it can be in, and a burst of calls in which each
    call comes less than [D] after the one before it.  During the burst
    [func] is not called.  Once [D] or more has passed after the last call
    of the burst, [func] has been called exactly once, [D] after that last
    call and with its arguments.  At every instant, whatever the calls
    made, at most one call of [func] is scheduled. *)
Theorem debounce_burst (Args U : Type) (func : Args -> U -> U * bool) (wait : Z)
    (s : state Args U) (first : Args) (more : list (N * Args)) (rest : N) :
  coherent s ->
  Forall (fun gc => fst gc < Timer.ticks wait) more ->
  Timer.ticks wait <= rest ->
  ((1 <= wait <= Timer.TIMEOUT_MAX)%Z -> Timer.ticks wait = Z.to_N wait) /\
  (~ (1 <= wait <= Timer.TIMEOUT_MAX)%Z -> Timer.ticks wait = 1) /\
  calls (snd (exec func wait (burst first more) s)) = calls (snd s) /\
  calls (snd (exec func wait (burst first more ++ [Wait Args rest]) s))
  = calls (snd s)
    ++ [(now (fst s) + duration more + Timer.ticks wait, lastArgs first more)] /\
  env (snd (exec func wait (burst first more ++ [Wait Args rest]) s))
  = fst (func (lastArgs first more) (env (snd s))) /\
  pending (fst (exec func wait (burst first more ++ [Wait Args rest]) s)) = [] /\
  (forall script,
      (List.length (pending (fst (exec func wait script s))) <= 1)%nat).
Proof.
  intros Hs Hgaps Hrest.
  split; [apply ticks_in_range|]. split; [apply ticks_out_of_range|].
  split; [now rewrite burst_arms|].
  unfold exec at 1 2 3. rewrite !fold_left_app. fold (exec func wait (burst first more) s).
  rewrite burst_arms by assumption.
  cbn [fold_left exec1 advance now pending fresh fire due action].
  replace (now (fst s) + duration more + Timer.ticks wait
           <=? now (fst s) + duration more + rest)
    with true by (symmetry; apply N.leb_le; lia).
  cbn [fire run env calls snd fst].
  destruct (func (lastArgs first more) (env (snd s))) as [u threw].
  cbn [fst snd calls env pending].
  repeat split.
  intros script. destruct (exec_coherent func wait script Hs) as [->|[t [_ ->]]];
    cbn; lia.
Qed.

Lemma debounce_burst_witness :
  calls (snd (exec (fun (a : nat) (u : list nat) => (a :: u, false)) 100
                (burst 1%nat [(10, 2%nat); (10, 3%nat); (10, 4%nat); (20, 5%nat)]
                 ++ [Wait nat 100])
                (debounce nat 0 [])))
  = [(150, 5%nat)].
Proof.
  destruct (@debounce_burst nat (list nat) (fun a u => (a :: u, false)) 100
              (debounce nat 0 []) 1%nat
              [(10, 2%nat); (10, 3%nat); (10, 4%nat); (20, 5%nat)] 100)
    as (_ & _ & _ & Hcalls & _).
  - apply debounce_coherent.
  - repeat constructor; vm_compute; reflexivity.
  - vm_compute. discriminate.
  - exact Hcalls.
Defined.

(** C7 as stated fails.  With [wait = 3000000000], above [TIMEOUT_MAX],
    two calls 5 time units apart, less than [wait], make [func] run
    twice, each time 1 time unit after the call.  And with [wait = 0] a
    single call makes [func] run 1 time unit after it, not 0. *)
Lemma debounce_wait_is_capped :
  calls (snd (exec (fun (a : nat) (u : list nat) => (a :: u, false)) 3000000000
                (burst 1%nat [(5, 2%nat)] ++ [Wait nat 3000000000])
                (debounce nat 0 [])))
  = [(1, 1%nat); (6, 2%nat)] /\
  calls (snd (exec (fun (a : nat) (u : list nat) => (a :: u, false)) 0
                (burst 1%nat [] ++ [Wait nat 0])
                (debounce nat 0 [])))
  = [] /\
  calls (snd (exec (fun (a : nat) (u : list nat) => (a :: u, false)) 0
                (burst 1%nat [] ++ [Wait nat 1])
                (debounce nat 0 [])))
  = [(1, 1%nat)].
Proof. repeat split. Qed.

End DebounceClaims.

(** ** throttle *)

Section ThrottleFacts.

Import EventLoop Throttle.
Local Open Scope N_scope.

Variables Args U : Type.
Variable func : Args -> U -> U * bool.
Variable limit : Z.

Lemma call_locked (args : Args) (s : state Args U) :
  inThrottle (snd s) = true -> call func limit args s = s.
Proof.
  destruct s as [l w]. cbn [snd]. intro H. unfold call. now rewrite H.
Qed.

(** A call that finds the wrapper unlocked, when [func] returns. *)
Lemma call_unlocked (args : Args) (s : state Args U) :
  coherent s -> inThrottle (snd s) = false ->
  snd (func args (env (snd s))) = false ->
  call func limit args s
  = ({| now := now (fst s);
        fresh := S (fresh (fst s));
        pending := [{| handle := fresh (fst s);
                       due := now (fst s) + Timer.ticks limit;
                       action := Unlock |}] |},
     {| inThrottle := true;
        calls := calls (snd s) ++ [(now (fst s), args)];
        env := fst (func args (env (snd s))) |}).
Proof.
  destruct s as [[t0 n q] [b log u]]. unfold coherent. cbn [fst snd].
  cbn [inThrottle pending env]. intros [[_ ->]|[-> _]] Hb Hf; [|discriminate].
  subst b. unfold call. cbn [inThrottle negb env].
  destruct (func args u) as [u' threw]. cbn [snd] in Hf. subst threw.
  reflexivity.
Qed.

(** A call that finds the wrapper unlocked, when [func] throws. *)
Lemma call_unlocked_throw (args : Args) (s : state Args U) :
  inThrottle (snd s) = false ->
  snd (func args (env (snd s))) = true ->
  call func limit args s
  = (fst s,
     {| inThrottle := false;
        calls := calls (snd s) ++ [(now (fst s), args)];
        env := fst (func args (env (snd s))) |}).
Proof.
  destruct s as [l [b log u]]. cbn [fst snd inThrottle env].
  intros -> Hf. unfold call. cbn [inThrottle negb env calls].
  destruct (func args u) as [u' threw]. cbn [snd] in Hf. subst threw.
  reflexivity.
Qed.

Lemma call_coherent_throttle (args : Args) (s : state Args U) :
  coherent s -> coherent (call func limit args s).
Proof.
  intro H. destruct (inThrottle (snd s)) eqn:Hb.
  - now rewrite call_locked.
  - destruct (snd (func args (env (snd s)))) eqn:Hf.
    + rewrite call_unlocked_throw by assumption. left.
      split; [reflexivity|]. cbn [fst].
      destruct H as [[_ Hq]|[Hlocked _]]; [exact Hq|congruence].
    + rewrite call_unlocked by assumption. right. split; [reflexivity|].
      now eexists.
Qed.

Lemma advance_coherent_throttle (d : N) (s : state Args U) :
  coherent s -> coherent (advance (@run Args U) d s).
Proof.
  destruct s as [[t0 n q] [b log u]]. unfold coherent. cbn [fst snd].
  cbn [inThrottle pending]. intros [[-> ->]|[-> [t ->]]].
  - left. split; reflexivity.
  - unfold advance. cbn [now pending fire].
    destruct (due t <=? t0 + d).
    + left. destruct (action t). split; reflexivity.
    + right. split; [reflexivity|now exists t].
Qed.

Lemma exec_coherent_throttle (script : list (step Args)) (s : state Args U) :
  coherent s -> coherent (exec func limit script s).
Proof.
  revert s. induction script as [|st script IH]; intros s H; [exact H|].
  cbn [exec fold_left]. apply IH. destruct st as [args|d].
  - now apply call_coherent_throttle.
  - now apply advance_coherent_throttle.
Qed.

Lemma throttle_coherent (t0 : N) (u : U) : coherent (throttle Args t0 u).
Proof. left. split; reflexivity. Qed.

(** While the unlocking timer is not due, calls and the passing of time
    change nothing but the clock. *)
Lemma exec_locked (script : list (step Args)) :
  forall (t0 : N) (n : nat) (t : timer callback) (w : closure Args U),
    inThrottle w = true ->
    t0 + elapsed script < due t ->
    exec func limit script ({| now := t0; fresh := n; pending := [t] |}, w)
    = ({| now := t0 + elapsed script; fresh := n; pending := [t] |}, w).
Proof.
  induction script as [|st script IH]; intros t0 n t w Hw Hdue.
  - cbn [exec fold_left elapsed map fold_right]. now rewrite N.add_0_r.
  - change (elapsed (st :: script))
      with (match st with Call _ => 0 | Wait _ d => d end + elapsed script) in *.
    cbn [exec fold_left]. destruct st as [args|d].
    + change (exec1 func limit (({| now := t0; fresh := n; pending := [t] |}, w)) (Call args))
        with (call func limit args ({| now := t0; fresh := n; pending := [t] |}, w)).
      rewrite call_locked by exact Hw.
      rewrite N.add_0_l in *. apply IH; [exact Hw|exact Hdue].
    + cbn [exec1 advance now pending fresh fire].
      replace (due t <=? t0 + d) with false by (symmetry; apply N.leb_gt; lia).
      fold (exec func limit script ({| now := t0 + d; fresh := n; pending := [t] |}, w)).
      rewrite IH by (assumption || lia). now rewrite N.add_assoc.
Qed.

End ThrottleFacts.

Section ThrottleClaims.

Import EventLoop Throttle.
Local Open Scope N_scope.

(** C8, as the code has it.  A call that finds the wrapper returned by
    [throttle(func, limit)] unlocked calls [func] at once with its
    arguments.  When [func] returns, the wrapper is locked, for the time
    [D] its timer runs : [limit] when that lies between 1 and
    [TIMEOUT_MAX], and 1 time unit when it does not.  A call that finds
    the wrapper locked changes nothing at all : [func] is not called and
    no timer is set.  Whatever is called while less than [D] has passed
    since the lock was taken leaves the wrapper locked and [func]
    uncalled; once [D] or more has passed, the next call calls [func] at
    once again.  When [func] throws, the wrapper is left unlocked, with no
    timer, and the next call calls [func] at once. *)
Theorem throttle_leading_edge (Args U : Type) (func : Args -> U -> U * bool)
    (limit : Z) (s : state Args U) (a : Args) :
  coherent s -> inThrottle (snd s) = false ->
  calls (snd (call func limit a s)) = calls (snd s) ++ [(now (fst s), a)] /\
  env (snd (call func limit a s)) = fst (func a (env (snd s))) /\
  ((1 <= limit <= Timer.TIMEOUT_MAX)%Z -> Timer.ticks limit = Z.to_N limit) /\
  (~ (1 <= limit <= Timer.TIMEOUT_MAX)%Z -> Timer.ticks limit = 1) /\
  (forall (s' : state Args U) b,
      inThrottle (snd s') = true -> call func limit b s' = s') /\
  (snd (func a (env (snd s))) = false ->
   inThrottle (snd (call func limit a s)) = true /\
   (forall script,
       elapsed script < Timer.ticks limit ->
       snd (exec func limit script (call func limit a s))
       = snd (call func limit a s) /\
       pending (fst (exec func limit script (call func limit a s)))
       = pending (fst (call func limit a s))) /\
   (forall script d b,
       elapsed script < Timer.ticks limit ->
       Timer.ticks limit <= elapsed script + d ->
       calls (snd (exec func limit (script ++ [Wait Args d; Call b])
                     (call func limit a s)))
       = calls (snd s)
         ++ [(now (fst s), a); (now (fst s) + elapsed script + d, b)])) /\
  (snd (func a (env (snd s))) = true ->
   inThrottle (snd (call func limit a s)) = false /\
   pending (fst (call func limit a s)) = [] /\
   forall b,
     calls (snd (call func limit b (call func limit a s)))
     = calls (snd s) ++ [(now (fst s), a); (now (fst s), b)]).
Proof.
  intros Hs Hb.
  assert (pending (fst s) = []) as Hq
    by (destruct Hs as [[_ Hq]|[Hlocked _]]; [exact Hq|congruence]).
  split.
  { destruct (snd (func a (env (snd s)))) eqn:Hf.
    - now rewrite call_unlocked_throw.
    - now rewrite call_unlocked. }
  split.
  { destruct (snd (func a (env (snd s)))) eqn:Hf.
    - now rewrite call_unlocked_throw.
    - now rewrite call_unlocked. }
  split; [apply ticks_in_range|]. split; [apply ticks_out_of_range|].
  split; [intros s' b; apply call_locked|]. split.
  - intro Hf. rewrite call_unlocked by assumption.
    cbn [fst snd calls env inThrottle pending].
    split; [reflexivity|]. split.
    + intros script Hlt. rewrite exec_locked; [now split|reflexivity|cbn; lia].
    + intros script d b Hlt Hge. unfold exec. rewrite fold_left_app.
      fold (exec func limit script
              ({| now := now (fst s); fresh := S (fresh (fst s));
                  pending := [{| handle := fresh (fst s);
                                 due := now (fst s) + Timer.ticks limit;
                                 action := Unlock |}] |},
               {| inThrottle := true;
                  calls := calls (snd s) ++ [(now (fst s), a)];
                  env := fst (func a (env (snd s))) |})).
      rewrite exec_locked; [|reflexivity|cbn; lia].
      cbn [fold_left exec1 advance now pending fresh fire due action].
      replace (now (fst s) + Timer.ticks limit <=? now (fst s) + elapsed script + d)
        with true by (symmetry; apply N.leb_le; lia).
      cbn [fire run call inThrottle negb calls env].
      destruct (func b (fst (func a (env (snd s))))) as [u' [|]];
        cbn [snd calls]; now rewrite <- app_assoc.
  - intro Hf. rewrite call_unlocked_throw by assumption.
    cbn [fst snd calls env inThrottle pending].
    split; [reflexivity|]. split; [exact Hq|].
    intro b. unfold call at 1. cbn [inThrottle negb env].
    destruct (func b (fst (func a (env (snd s))))) as [u' [|]].
    + cbn [snd calls]. now rewrite <- app_assoc.
    + destruct (setTimeout Unlock limit (fst s)) as [h l'].
      cbn [snd calls]. now rewrite <- app_assoc.
Qed.

Lemma throttle_leading_edge_witness :
  calls (snd (exec (fun (a : nat) (u : list nat) => (a :: u, false)) 100
                ([Call 2%nat; Call 3%nat; Call 4%nat; Call 5%nat]
                 ++ [Wait nat 150; Call 6%nat])
                (call (fun (a : nat) (u : list nat) => (a :: u, false)) 100 1%nat
                   (throttle nat 0 []))))
  = [(0, 1%nat); (150, 6%nat)].
Proof.
  destruct (@throttle_leading_edge nat (list nat) (fun a u => (a :: u, false)) 100
              (throttle nat 0 []) 1%nat (throttle_coherent nat 0 []) eq_refl)
    as (_ & _ & _ & _ & _ & Hreturns & _).
  destruct (Hreturns eq_refl) as (_ & _ & Hnext).
  apply (Hnext [Call 2%nat; Call 3%nat; Call 4%nat; Call 5%nat] 150 6%nat).
  - vm_compute. reflexivity.
  - vm_compute. discriminate.
Defined.

(** C8 as stated fails.  When [func] throws, the wrapper does not lock:
    a second call at the same instant calls [func] again.  And with
    [limit = 3000000000], above [TIMEOUT_MAX], the lock lasts 1 time unit
    instead of [limit] : a call 5 time units after the first calls [func]
    again. *)
Lemma throttle_lock_can_fail :
  calls (snd (exec (fun (a : nat) (u : list nat) => (a :: u, true)) 100
                [Call 1%nat; Call 2%nat]
                (throttle nat 0 [])))
  = [(0, 1%nat); (0, 2%nat)] /\
  calls (snd (exec (fun (a : nat) (u : list nat) => (a :: u, false)) 3000000000
                [Call 1%nat; Wait nat 5; Call 2%nat]
                (throttle nat 0 [])))
  = [(0, 1%nat); (5, 2%nat)].
Proof. split; reflexivity. Qed.

End ThrottleClaims.

(** ** timeout *)

Section TimeoutFacts.

Import EventLoop Timeout.
Local Open Scope N_scope.

Variables E T : Type.
Variable numberToString : Z -> string.

Ltac compare_instants :=
  repeat match goal with
         | |- context [?a <? ?b] => destruct (N.ltb_spec a b); try lia
         | |- context [?a <=? ?b] => destruct (N.leb_spec a b); try lia
         end.

(** The promise settles first. *)
Lemma race_won (t d : N) (ms : Z) (o : settled E T) :
  t < Timer.ticks ms ->
  observe numberToString d (timeout (Some (t, o)) ms)
  = if t <=? d then Some (t, adopt o) else None.
Proof.
  intro Hlt. unfold observe, timeout, inFlight, advance, setTimeout, register.
  cbn [idle now fresh pending snd fst enqueue due fire action handle].
  rewrite !N.add_0_l.
  compare_instants; cbn [fire due action run settleRace race input snd];
    compare_instants; reflexivity.
Qed.

(** The timer fires first. *)
Lemma race_lost (t d : N) (ms : Z) (o : settled E T) :
  Timer.ticks ms < t ->
  advance (run numberToString) d (timeout (Some (t, o)) ms)
  = ({| now := d;
        fresh := 3;
        pending :=
          (if Timer.ticks ms <=? d then []
           else [{| handle := 2; due := Timer.ticks ms;
                    action := RejectRace E T ms |}])
          ++ (if t <=? d then []
              else [{| handle := 1; due := t; action := SettleInput o |}]) |},
     {| input := if t <=? d then Some o else None;
        race := if Timer.ticks ms <=? d
                then Some (Timer.ticks ms,
                           Rejected (TimedOut E (message numberToString ms)))
                else None |}).
Proof.
  intro Hlt. unfold timeout, inFlight, advance, setTimeout, register.
  cbn [idle now fresh pending snd fst enqueue due fire action handle].
  rewrite !N.add_0_l.
  compare_instants; cbn [fire due action run settleRace race input snd app];
    compare_instants; reflexivity.
Qed.

Lemma race_never (d : N) (ms : Z) :
  observe numberToString d (timeout (@None (N * settled E T)) ms)
  = if Timer.ticks ms <=? d
    then Some (Timer.ticks ms, Rejected (TimedOut E (message numberToString ms)))
    else None.
Proof.
  unfold observe, timeout, inFlight, advance, setTimeout, register.
  cbn [idle now fresh pending snd fst enqueue due fire action handle].
  rewrite !N.add_0_l.
  compare_instants; reflexivity.
Qed.

End TimeoutFacts.

Section TimeoutClaims.

Import EventLoop Timeout.
Local Open Scope N_scope.

(** C6, as the code has it.  The timer of [timeout(promise, ms)] runs
    for [ms] time units when [ms] lies between 1 and [TIMEOUT_MAX], and
    for 1 time unit when it does not; call that time [D].  Let [promise]
    settle at instant [t] after the call.  If [t < D], the returned
    promise settles at [t], and not before, as [promise] does : fulfilled
    with its value, or rejected with its own reason.  If [promise] never
    settles, or settles only after [D], the returned promise is rejected
    with the time-out error at instant [D] and is pending before.  The
    operation behind [promise] is not cancelled : it still settles
    [promise] at [t], and the returned promise stays as the timer left
    it. *)
Theorem timeout_race (E T : Type) (numberToString : Z -> string)
    (ms : Z) (t d : N) (o : settled E T) :
  ((1 <= ms <= Timer.TIMEOUT_MAX)%Z -> Timer.ticks ms = Z.to_N ms) /\
  (~ (1 <= ms <= Timer.TIMEOUT_MAX)%Z -> Timer.ticks ms = 1) /\
  (t < Timer.ticks ms ->
   (t <= d -> observe numberToString d (timeout (Some (t, o)) ms)
              = Some (t, adopt o)) /\
   (d < t -> observe numberToString d (timeout (Some (t, o)) ms) = None)) /\
  (forall v, t < Timer.ticks ms -> t <= d ->
             observe numberToString d (timeout
                          (Some (t, Fulfilled v : settled E T)) ms)
             = Some (t, Fulfilled v)) /\
  (Timer.ticks ms < t ->
   (d < Timer.ticks ms ->
    observe numberToString d (timeout (Some (t, o)) ms) = None) /\
   (Timer.ticks ms <= d ->
    observe numberToString d (timeout (Some (t, o)) ms)
    = Some (Timer.ticks ms, Rejected (TimedOut E (message numberToString ms)))) /\
   (t <= d ->
    input (snd (advance (run numberToString) d
                  (timeout (Some (t, o)) ms)))
    = Some o)) /\
  (d < Timer.ticks ms ->
   observe numberToString d (timeout (@None (N * settled E T)) ms) = None) /\
  (Timer.ticks ms <= d ->
   observe numberToString d (timeout (@None (N * settled E T)) ms)
   = Some (Timer.ticks ms, Rejected (TimedOut E (message numberToString ms)))).
Proof.
  split; [apply ticks_in_range|]. split; [apply ticks_out_of_range|].
  split; [|split; [|split; [|split]]].
  - intros Hlt. rewrite race_won by exact Hlt. split; intro Hd.
    + now replace (t <=? d) with true by (symmetry; apply N.leb_le; lia).
    + now replace (t <=? d) with false by (symmetry; apply N.leb_gt; lia).
  - intros v Hlt Hd. rewrite race_won by exact Hlt.
    now replace (t <=? d) with true by (symmetry; apply N.leb_le; lia).
  - intros Hlt. unfold observe. rewrite race_lost by exact Hlt.
    cbn [snd race input]. split; [|split]; intro Hd.
    + now replace (Timer.ticks ms <=? d) with false
        by (symmetry; apply N.leb_gt; lia).
    + now replace (Timer.ticks ms <=? d) with true
        by (symmetry; apply N.leb_le; lia).
    + now replace (t <=? d) with true by (symmetry; apply N.leb_le; lia).
  - intro Hd. rewrite race_never.
    now replace (Timer.ticks ms <=? d) with false
      by (symmetry; apply N.leb_gt; lia).
  - intro Hd. rewrite race_never.
    now replace (Timer.ticks ms <=? d) with true
      by (symmetry; apply N.leb_le; lia).
Qed.

Lemma timeout_race_witness :
  observe decimal 30 (timeout (Some (5, Fulfilled 42%nat : settled jsError nat)) 20)
  = Some (5, Fulfilled 42%nat) /\
  observe decimal 30 (timeout (Some (25, Fulfilled 42%nat : settled jsError nat)) 20)
  = Some (20, Rejected (TimedOut jsError "Operation timed out after 20ms"%string)).
Proof.
  split.
  - apply (@timeout_race jsError nat decimal 20 5 30 (Fulfilled 42%nat));
      vm_compute; (reflexivity || discriminate).
  - destruct (@timeout_race jsError nat decimal 20 25 30 (Fulfilled 42%nat))
      as (_ & _ & _ & _ & Hlost & _).
    destruct (Hlost ltac:(vm_compute; reflexivity)) as (_ & Hfired & _).
    apply Hfired. vm_compute. discriminate.
Defined.

(** C6 as stated fails.  A promise that is rejected at instant 1,
    before the deadline of 10, does not make [timeout] resolve with a
    value, and the failure of [timeout] comes before the deadline and is
    not the time-out error but the reason of the promise.  And with
    [ms = 3000000000], above [TIMEOUT_MAX], a promise that would be
    fulfilled at instant 50 is too late : [timeout] fails with the
    time-out error at instant 1, long before [ms] has passed. *)
Lemma timeout_passes_early_rejection :
  observe decimal 100 (timeout
                 (Some (1, Rejected (Err "boom"%string) : settled jsError nat)) 10)
  = Some (1, Rejected (Underlying (Err "boom"%string))) /\
  (forall at_ v,
      observe decimal 100 (timeout
                     (Some (1, Rejected (Err "boom"%string) : settled jsError nat)) 10)
      <> Some (at_, Fulfilled v)) /\
  (forall at_ text,
      observe decimal 100 (timeout
                     (Some (1, Rejected (Err "boom"%string) : settled jsError nat)) 10)
      <> Some (at_, Rejected (TimedOut jsError text))) /\
  observe decimal 100 (timeout
                 (Some (50, Fulfilled 42%nat : settled jsError nat)) 3000000000)
  = Some (1, Rejected (TimedOut jsError
                         "Operation timed out after 3000000000ms"%string)).
Proof.
  split; [reflexivity|]. split; [intros; discriminate|].
  split; [intros; discriminate|reflexivity].
Qed.

End TimeoutClaims.

(** * Further properties *)

(** ** retry : time slept, and a negative [maxRetries] *)

Section RetryTimingFacts.

Import Retry RetryTiming.
Local Open Scope Z_scope.

Lemma sum_backoff (D : Z) (n : nat) :
  fold_right Z.add 0 (map (fun i => D * 2 ^ Z.of_nat i) (seq 0 n))
  = D * (2 ^ Z.of_nat n - 1).
Proof.
  induction n as [|n IH]; [cbn; lia|].
  rewrite seq_S, map_app, fold_right_app. cbn [map fold_right Nat.add].
  assert (forall (l : list Z) (a : Z),
             fold_right Z.add a l = fold_right Z.add 0 l + a) as Hacc.
  { induction l as [|x l IHl]; intro a; cbn; [lia|]. rewrite IHl. lia. }
  rewrite Hacc, IH. rewrite Nat2Z.inj_succ, Z.pow_succ_r by lia. lia.
Qed.

(** Within the range of delays [setTimeout] accepts, [sleep] waits
    what it is asked to. *)
Lemma sleep_in_range (ms : Z) :
  1 <= ms <= Timer.TIMEOUT_MAX -> sleep ms = ms.
Proof.
  intro H. unfold sleep, Timer.timerDelay.
  replace (1 <=? ms) with true by (symmetry; apply Z.leb_le; lia).
  replace (ms <=? Timer.TIMEOUT_MAX) with true by (symmetry; apply Z.leb_le; lia).
  reflexivity.
Qed.

Lemma totalDelay_schedule (D : Z) (n : nat) :
  1 <= D -> D * 2 ^ (Z.of_nat n - 1) <= Timer.TIMEOUT_MAX ->
  totalDelay (schedule D n) = D * (2 ^ Z.of_nat n - 1).
Proof.
  intros HD Hmax. unfold totalDelay. rewrite delays_schedule.
  rewrite <- sum_backoff. f_equal. apply map_ext_in. intros i Hi.
  apply in_seq in Hi. apply sleep_in_range.
  assert (0 < 2 ^ Z.of_nat i) by (apply Z.pow_pos_nonneg; lia).
  assert (2 ^ Z.of_nat i <= 2 ^ (Z.of_nat n - 1))
    by (apply Z.pow_le_mono_r; lia).
  split; [nia|]. apply Z.le_trans with (D * 2 ^ (Z.of_nat n - 1)); [nia|exact Hmax].
Qed.

(** X1.  When [baseDelay >= 1] and the longest back-off delay,
    [baseDelay * 2^(maxRetries - 1)], does not exceed [TIMEOUT_MAX], a run
    of [retry] that makes [n + 1] attempts sleeps [baseDelay * (2^n - 1)]
    in all; this is at most [baseDelay * (2^maxRetries - 1)], the time
    slept when every attempt fails. *)
Theorem retry_total_delay (E T : Type) (operation : nat -> settled E T)
    (R D : Z) (fuel : nat) :
  0 <= R -> (Z.to_nat R < fuel)%nat ->
  1 <= D -> D * 2 ^ (R - 1) <= Timer.TIMEOUT_MAX ->
  exists res tr,
    retry operation fuel R D = Some (res, tr) /\
    totalDelay tr = D * (2 ^ Z.of_nat (invocations tr - 1) - 1) /\
    totalDelay tr <= D * (2 ^ R - 1) /\
    ((forall j, (j <= Z.to_nat R)%nat -> fails operation j) ->
     totalDelay tr = D * (2 ^ R - 1)).
Proof.
  intros HR Hfuel HD Hmax.
  destruct (retry_run operation D HR Hfuel) as [n (Hn & Hbefore & Hstop & Hrun)].
  exists (surface (operation n)), (schedule D n).
  split; [exact Hrun|].
  assert (D * 2 ^ (Z.of_nat n - 1) <= Timer.TIMEOUT_MAX) as Hmaxn.
  { apply Z.le_trans with (D * 2 ^ (R - 1)); [|exact Hmax].
    destruct (Z.eq_dec (Z.of_nat n) 0) as [H0|H0].
    - rewrite H0. cbn. assert (0 <= 2 ^ (R - 1)) by (apply Z.pow_nonneg; lia). nia.
    - apply Z.mul_le_mono_nonneg_l; [lia|]. apply Z.pow_le_mono_r; lia. }
  rewrite totalDelay_schedule, invocations_schedule by assumption.
  replace (S n - 1)%nat with n by lia.
  split; [reflexivity|]. split.
  - apply Z.mul_le_mono_nonneg_l; [lia|].
    apply Z.sub_le_mono_r. apply Z.pow_le_mono_r; lia.
  - intro Hall.
    assert (n = Z.to_nat R) as ->.
    { destruct Hstop as [->|[v Hv]]; [reflexivity|].
      destruct (Hall n Hn) as [e He]. congruence. }
    now rewrite Z2Nat.id by lia.
Qed.

Lemma retry_total_delay_witness :
  exists res tr,
    retry (fun _ => Rejected (Err "down") : settled jsError nat) 4 3 1000
    = Some (res, tr) /\
    totalDelay tr = 7000.
Proof.
  destruct (@retry_total_delay jsError nat (fun _ => Rejected (Err "down"))
              3 1000 4%nat ltac:(lia) ltac:(cbn; lia) ltac:(lia)
              ltac:(vm_compute; discriminate))
    as [res [tr (Hrun & _ & _ & Hall)]].
  exists res, tr. split; [exact Hrun|].
  rewrite Hall; [reflexivity|].
  intros j _. now exists (Err "down").
Defined.

(** X2.  [retry] throws [undefined], the initial content of
    [lastError], exactly when [maxRetries] is negative; it does so without
    calling the operation and without sleeping.  With [maxRetries >= 0]
    whatever it throws was thrown by the operation. *)
Theorem retry_negative_maxRetries (E T : Type) (operation : nat -> settled E T)
    (R D : Z) (fuel : nat) :
  (Z.to_nat (R + 1) < fuel)%nat ->
  (R < 0 -> retry operation fuel R D = Some (Rejected None, [])) /\
  (0 <= R -> forall thrown tr,
      retry operation fuel R D = Some (Rejected thrown, tr) ->
      exists n e, thrown = Some e /\ operation n = Rejected e).
Proof.
  intro Hfuel. split.
  - intro HR. destruct fuel as [|fuel']; [lia|].
    unfold retry. cbn [retryLoop].
    now replace (0 <=? R) with false by (symmetry; apply Z.leb_gt; lia).
  - intros HR thrown tr Hrun.
    destruct (retry_run operation D HR (fuel := fuel) ltac:(lia))
      as [n (_ & _ & _ & Hn)].
    rewrite Hn in Hrun. destruct (operation n) as [v|e] eqn:Hop; [discriminate|].
    cbn in Hrun. injection Hrun as <- _. now exists n, e.
Qed.

Lemma retry_negative_maxRetries_witness :
  retry (fun _ => Fulfilled 1%nat : settled jsError nat) 1 (-1) 1000
  = Some (Rejected None, []).
Proof.
  apply (@retry_negative_maxRetries jsError nat (fun _ => Fulfilled 1%nat)
           (-1) 1000 1%nat); [cbn; lia|lia].
Defined.

End RetryTimingFacts.

(** ** batchProcess : rounds, and where a failure stops the work *)

Section BatchRoundsFacts.

Import Batch BatchRounds.
Local Open Scope Z_scope.

Variables T R E : Type.
Variable processor : T -> invocation R E.
Variable maxArguments : N.
Variable rangeError : E.

Lemma chunk_done_succeeds (batch invoked : list T) (ps : list (promise R E))
    (rs : list R) :
  mapProcessor processor batch = (invoked, inr ps) ->
  promiseAll ps = Some (Fulfilled rs) ->
  invoked = batch /\ Forall (succeeds processor) batch.
Proof.
  intros Hmap Hall.
  pose proof (chunk_cases processor batch) as Hend. rewrite Hmap in Hend.
  inversion Hend as [j x e inv Hj Hf Hinv Heq | j x e ps' Hj Hf Hrej Heq
                     | x ps' Hin Hx Hnone Hstuck Heq
                     | ps' Hdone Hok Hvals Heq]; subst.
  - congruence.
  - congruence.
  - split; [reflexivity|exact Hdone].
Qed.

Lemma batches_rounds (items : list T) (C : Z) :
  1 <= C ->
  forall (fuel : nat) (i : Z) (results : list R),
    0 <= i ->
    Forall (fun b => (List.length b <= Z.to_nat C)%nat)
           (batches processor maxArguments fuel items C i) /\
    (forall k b, nth_error (batches processor maxArguments fuel items C i) k = Some b ->
                 (S k < List.length (batches processor maxArguments fuel items C i))%nat ->
                 Forall (succeeds processor) b) /\
    (exists rest, skipn (Z.to_nat i) items
                  = List.concat (batches processor maxArguments fuel items C i) ++ rest) /\
    (exists rest, List.concat (batches processor maxArguments fuel items C i)
                  = fst (batchLoop processor maxArguments rangeError fuel items C i results)
                    ++ rest).
Proof.
  intro HC. induction fuel as [|fuel IH]; intros i results Hi.
  - cbn. split; [constructor|]. split; [intros k b Hk; destruct k; discriminate|].
    split; eexists; reflexivity.
  - cbn [batches batchLoop].
    destruct (i <? Z.of_nat (List.length items)) eqn:Hlt.
    2:{ cbn. split; [constructor|].
        split; [intros k b Hk; destruct k; discriminate|].
        split; eexists; reflexivity. }
    apply Z.ltb_lt in Hlt. rewrite slice_chunk by assumption.
    set (batch := firstn (Z.to_nat C) (skipn (Z.to_nat i) items)).
    assert (List.length batch <= Z.to_nat C)%nat as Hlen
        by (unfold batch; rewrite length_firstn; lia).
    assert (skipn (Z.to_nat i) items
            = batch ++ skipn (Z.to_nat (i + C)) items) as Hsplit.
    { unfold batch. replace (Z.to_nat (i + C)) with (Z.to_nat C + Z.to_nat i)%nat by lia.
      rewrite <- skipn_skipn. now rewrite firstn_skipn. }
    assert (forall invoked : list T,
               invoked = batch ->
               Forall (fun b => (List.length b <= Z.to_nat C)%nat) [batch] /\
               (forall k b, nth_error [batch] k = Some b ->
                            (S k < List.length [batch])%nat ->
                            Forall (succeeds processor) b) /\
               (exists rest, skipn (Z.to_nat i) items = List.concat [batch] ++ rest) /\
               (exists rest, List.concat [batch] = invoked ++ rest)) as Hstop.
    { intros invoked ->. cbn [List.concat app]. rewrite app_nil_r.
      split; [repeat constructor; exact Hlen|].
      split; [intros k b Hk Hk'; cbn in Hk'; lia|].
      split; [eexists; exact Hsplit|].
      exists []. now rewrite app_nil_r. }
    destruct (mapProcessor processor batch) as [invoked [e|ps]] eqn:Hmap.
    + destruct (mapProcessor_throw _ _ Hmap) as [j [x (_ & _ & ->)]].
      cbn [fst List.concat app]. rewrite app_nil_r.
      split; [repeat constructor; exact Hlen|].
      split; [intros k b Hk Hk'; cbn in Hk'; lia|].
      split; [eexists; exact Hsplit|].
      exists (skipn (S j) batch). now rewrite firstn_skipn.
    + destruct (mapProcessor_promises _ _ Hmap) as [Hinv _].
      destruct (promiseAll ps) as [[batchResults|e]|] eqn:Hall;
        [|now apply Hstop|now apply Hstop].
      destruct (maxArguments <? N.of_nat (List.length batchResults))%N;
        [now apply Hstop|].
      destruct (chunk_done_succeeds _ Hmap Hall) as [-> Hok].
      destruct (IH (i + C) (results ++ batchResults) ltac:(lia))
        as (Hall' & Hfull & [rest Hrest] & [rest' Hrest']).
      destruct (batchLoop processor maxArguments rangeError fuel items C (i + C)
                  (results ++ batchResults)) as [later r] eqn:Hrec.
      cbn [fst] in *. cbn [List.concat].
      split; [constructor; assumption|]. split.
      * intros k b Hk Hk'. destruct k as [|k].
        -- injection Hk as <-. exact Hok.
        -- cbn in Hk, Hk'. apply (Hfull k b Hk). lia.
      * split.
        -- exists rest. rewrite Hsplit, Hrest. now rewrite app_assoc.
        -- exists rest'. rewrite Hrest'. now rewrite app_assoc.
Qed.

(** A throw at the first failing item. *)
Lemma mapProcessor_prefix_throw (pre post : list T) (x : T) (e : E) :
  Forall (succeeds processor) pre ->
  processor x = Throws e ->
  mapProcessor processor (pre ++ x :: post) = (pre ++ [x], inl e).
Proof.
  intros Hpre Hx. induction Hpre as [|y pre Hy Hpre IH].
  - cbn. now rewrite Hx.
  - cbn [app mapProcessor]. rewrite IH.
    destruct Hy as [v Hv]. destruct (processor y) as [e'|p]; [discriminate|].
    reflexivity.
Qed.

Lemma chunkLoop_throw (c : nat) (x : T) (e : E) (post : list T) :
  (1 <= c)%nat ->
  processor x = Throws e ->
  forall (fuel : nat) (pre : list T) (results : list R),
    (List.length pre < fuel)%nat ->
    chunksFit maxArguments c pre ->
    Forall (succeeds processor) pre ->
    chunkLoop processor maxArguments rangeError fuel c (pre ++ x :: post) results
    = (pre ++ [x], Some (Settled (Rejected e))).
Proof.
  intros Hc Hx. induction fuel as [|fuel IH]; intros pre results Hfuel Hfit Hpre; [lia|].
  cbn [chunkLoop].
  destruct (pre ++ x :: post) as [|y rest] eqn:Hrest;
    [destruct pre; discriminate|].
  rewrite <- Hrest. clear Hrest y rest.
  destruct (Nat.lt_ge_cases (List.length pre) c) as [Hshort|Hlong].
  - rewrite firstn_app.
    rewrite (firstn_all2 pre) by lia.
    destruct (c - List.length pre)%nat as [|m] eqn:Hm; [lia|].
    cbn [firstn]. now rewrite (@mapProcessor_prefix_throw pre (firstn m post) x e Hpre Hx).
  - rewrite firstn_app. replace (c - List.length pre)%nat with 0%nat by lia.
    cbn [firstn]. rewrite app_nil_r.
    assert (Forall (succeeds processor) (firstn c pre)) as Hhead.
    { apply Forall_forall. intros y Hy. rewrite Forall_forall in Hpre.
      apply Hpre. now apply in_firstn in Hy. }
    destruct (chunk_of_successes Hhead) as [ps (-> & -> & _ & Hlen)].
    rewrite Hlen, length_firstn.
    replace (maxArguments <? N.of_nat (Nat.min c (List.length pre)))%N with false
      by (symmetry; apply N.ltb_ge; destruct Hfit; lia).
    rewrite skipn_app. replace (c - List.length pre)%nat with 0%nat by lia.
    cbn [skipn]. rewrite IH.
    + now rewrite app_assoc, firstn_skipn.
    + rewrite length_skipn. lia.
    + destruct Hfit as [Hfit|Hfit]; [lia|now right].
    + apply Forall_forall. intros y Hy. rewrite Forall_forall in Hpre.
      apply Hpre. now apply in_skipn in Hy.
Qed.

Lemma chunkLoop_reject (c : nat) (x : T) (after : nat) (e : E)
    (post : list T) :
  (1 <= c)%nat ->
  processor x = Returns (Settles after (Rejected e)) ->
  Forall (succeeds processor) post ->
  forall (fuel : nat) (pre : list T) (results : list R),
    (List.length pre < fuel)%nat ->
    chunksFit maxArguments c pre ->
    Forall (succeeds processor) pre ->
    chunkLoop processor maxArguments rangeError fuel c (pre ++ x :: post) results
    = (firstn ((List.length pre / c + 1) * c) (pre ++ x :: post),
       Some (Settled (Rejected e))).
Proof.
  intros Hc Hx Hpost.
  assert (failure (processor x) = Some e) as Hfx by (now rewrite Hx).
  induction fuel as [|fuel IH]; intros pre results Hfuel Hfit Hpre; [lia|].
  cbn [chunkLoop].
  destruct (pre ++ x :: post) as [|y rest] eqn:Hrest;
    [destruct pre; discriminate|].
  rewrite <- Hrest. clear Hrest y rest.
  destruct (Nat.lt_ge_cases (List.length pre) c) as [Hshort|Hlong].
  - rewrite (Nat.div_small (List.length pre) c) by lia.
    cbn [Nat.add Nat.mul]. rewrite Nat.add_0_r.
    set (batch := firstn c (pre ++ x :: post)).
    assert (forall y, In y batch -> succeeds processor y \/ y = x) as Hitems.
    { intros y Hy. unfold batch in Hy. apply in_firstn, in_app_or in Hy.
      rewrite Forall_forall in Hpre, Hpost.
      destruct Hy as [Hy|[<-|Hy]]; [left; now apply Hpre|now right|left; now apply Hpost]. }
    assert (In x batch) as Hin.
    { apply nth_error_In with (List.length pre). unfold batch.
      rewrite nth_error_firstn.
      replace (List.length pre <? c)%nat with true by (symmetry; apply Nat.ltb_lt; lia).
      rewrite nth_error_app2 by lia. now rewrite Nat.sub_diag. }
    assert (forall y e', In y batch -> failure (processor y) = Some e' -> e' = e)
      as Hsame.
    { intros y e' Hy He'. destruct (Hitems y Hy) as [Hok| ->].
      - apply succeeds_not_failure in Hok. congruence.
      - congruence. }
    pose proof (chunk_cases processor batch) as Hend.
    destruct (mapProcessor processor batch) as [invoked [e'|ps]] eqn:Hmap.
    + exfalso. destruct (mapProcessor_throw _ _ Hmap) as [j [y (Hj & Hy & _)]].
      apply nth_error_In in Hj. destruct (Hitems y Hj) as [[v Hv]| ->].
      * rewrite Hy in Hv. discriminate.
      * congruence.
    + inversion Hend as [j y e' inv Hj Hf Hinv Heq | j y e' ps' Hj Hf Hrej Heq
                         | y ps' Hy Hpend Hnone Hstuck Heq
                         | ps' Hdone Hall Hvals Heq]; subst.
      * rewrite Hrej. apply nth_error_In in Hj.
        now rewrite (Hsame y e' Hj Hf).
      * exfalso. specialize (Hnone x Hin). congruence.
      * exfalso. rewrite Forall_forall in Hdone.
        apply Hdone, succeeds_not_failure in Hin. congruence.
  - rewrite firstn_app. replace (c - List.length pre)%nat with 0%nat by lia.
    cbn [firstn]. rewrite app_nil_r.
    assert (Forall (succeeds processor) (firstn c pre)) as Hhead.
    { apply Forall_forall. intros y Hy. rewrite Forall_forall in Hpre.
      apply Hpre. now apply in_firstn in Hy. }
    destruct (chunk_of_successes Hhead) as [ps (-> & -> & _ & Hlen)].
    rewrite Hlen, length_firstn.
    replace (maxArguments <? N.of_nat (Nat.min c (List.length pre)))%N with false
      by (symmetry; apply N.ltb_ge; destruct Hfit; lia).
    rewrite skipn_app. replace (c - List.length pre)%nat with 0%nat by lia.
    cbn [skipn]. rewrite IH.
    + f_equal.
      assert (List.length pre / c = List.length (skipn c pre) / c + 1)%nat as ->.
      { rewrite length_skipn.
        replace (List.length pre) with ((List.length pre - c) + 1 * c)%nat at 1 by lia.
        apply Nat.div_add. lia. }
      replace ((List.length (skipn c pre) / c + 1 + 1) * c)%nat
        with (c + (List.length (skipn c pre) / c + 1) * c)%nat by lia.
      rewrite firstn_add.
      assert (firstn c (pre ++ x :: post) = firstn c pre) as ->.
      { rewrite firstn_app. replace (c - List.length pre)%nat with 0%nat by lia.
        cbn [firstn]. now rewrite app_nil_r. }
      assert (skipn c (pre ++ x :: post) = skipn c pre ++ x :: post) as ->.
      { rewrite skipn_app. now replace (c - List.length pre)%nat with 0%nat by lia. }
      reflexivity.
    + rewrite length_skipn. lia.
    + destruct Hfit as [Hfit|Hfit]; [lia|now right].
    + apply Forall_forall. intros y Hy. rewrite Forall_forall in Hpre.
      apply Hpre. now apply in_skipn in Hy.
Qed.

End BatchRoundsFacts.

Section BatchRoundsClaims.

Import Batch BatchRounds.
Local Open Scope Z_scope.

(** X3.  With [concurrency = C >= 1] every round of the loop hands at
    most [C] items to the processor; a further round is started only when
    every item of the round before has succeeded; the rounds, one after
    the other, are a prefix of the items; and the items the processor is
    invoked on are a prefix of the rounds.  So no more than [C] promises
    of the processor are pending at any time. *)
Theorem batchProcess_rounds (T R E : Type) (processor : T -> invocation R E)
    (maxArguments : N) (rangeError : E)
    (items : list T) (C : Z) (fuel : nat) :
  1 <= C ->
  Forall (fun b => (List.length b <= Z.to_nat C)%nat)
         (batches processor maxArguments fuel items C 0) /\
  (forall k b, nth_error (batches processor maxArguments fuel items C 0) k = Some b ->
               (S k < List.length (batches processor maxArguments fuel items C 0))%nat ->
               Forall (succeeds processor) b) /\
  (exists rest, items = List.concat (batches processor maxArguments fuel items C 0) ++ rest) /\
  (exists rest, List.concat (batches processor maxArguments fuel items C 0)
                = fst (batchProcess processor maxArguments rangeError fuel items C)
                  ++ rest).
Proof.
  intro HC.
  exact (batches_rounds processor maxArguments rangeError items HC fuel
           (i := 0) [] ltac:(lia)).
Qed.

Lemma batchProcess_rounds_witness :
  batches (fun n : nat => Returns (Settles n (Fulfilled n : settled jsError nat)))
          125000 8 [1; 2; 3; 4; 5; 6; 7]%nat 3 0
  = [[1; 2; 3]; [4; 5; 6]; [7]]%nat /\
  Forall (fun b => (List.length b <= 3)%nat)
    (batches (fun n : nat => Returns (Settles n (Fulfilled n : settled jsError nat)))
             125000 8 [1; 2; 3; 4; 5; 6; 7]%nat 3 0).
Proof.
  split; [reflexivity|].
  apply (@batchProcess_rounds nat nat jsError
           (fun n : nat => Returns (Settles n (Fulfilled n)))
           125000%N (RangeError "Maximum call stack size exceeded"%string)
           [1; 2; 3; 4; 5; 6; 7]%nat 3 8%nat).
  lia.
Defined.

(** X4.  When the processor throws on an item, instead of returning a
    promise, and succeeds on every item before it, the call fails with
    what was thrown and the processor has been invoked on the items up to
    that one and on no other, whatever the concurrency [>= 1] for which
    the chunks before that item are not longer than the engine allows :
    the later items of the same chunk are not started. *)
Theorem batchProcess_throw_stops (T R E : Type) (processor : T -> invocation R E)
    (maxArguments : N) (rangeError : E)
    (pre post : list T) (x : T) (e : E) (C : Z) (fuel : nat) :
  1 <= C -> (List.length pre < fuel)%nat ->
  (List.length pre < Z.to_nat C)%nat \/ (N.of_nat (Z.to_nat C) <= maxArguments)%N ->
  Forall (succeeds processor) pre ->
  processor x = Throws e ->
  batchProcess processor maxArguments rangeError fuel (pre ++ x :: post) C
  = (pre ++ [x], Some (Settled (Rejected e))).
Proof.
  intros HC Hfuel Hfit Hpre Hx. unfold batchProcess.
  rewrite batchLoop_chunks by lia. cbn [Z.to_nat skipn].
  apply chunkLoop_throw; (assumption || lia).
Qed.

Lemma batchProcess_throw_stops_witness :
  batchProcess
    (fun n : nat => if (n =? 4)%nat then Throws (Err "four")
                    else Returns (Settles n (Fulfilled n : settled jsError nat)))
    125000 (RangeError "Maximum call stack size exceeded")
    4 [1; 2; 3; 4; 5; 6; 7]%nat 5
  = ([1; 2; 3; 4]%nat, Some (Settled (Rejected (Err "four")))).
Proof.
  apply (@batchProcess_throw_stops nat nat jsError
           (fun n : nat => if (n =? 4)%nat then Throws (Err "four")
                           else Returns (Settles n (Fulfilled n)))
           125000%N (RangeError "Maximum call stack size exceeded"%string)
           [1; 2; 3]%nat [5; 6; 7]%nat 4%nat (Err "four") 5 4%nat).
  - lia.
  - cbn. lia.
  - right. lia.
  - repeat constructor; eexists; reflexivity.
  - reflexivity.
Defined.

(** X5.  When the promise the processor returns for one item is
    rejected and the processor succeeds on every other item, the call
    fails with that rejection, and the processor has been invoked on
    every item up to the end of the chunk of the failing item, the items
    after it in that chunk included, and on none of a later chunk; this
    for every concurrency [>= 1] for which the chunks before that item
    are not longer than the engine allows. *)
Theorem batchProcess_rejection_finishes_chunk (T R E : Type)
    (processor : T -> invocation R E) (maxArguments : N) (rangeError : E)
    (pre post : list T) (x : T)
    (after : nat) (e : E) (C : Z) (fuel : nat) :
  1 <= C -> (List.length pre < fuel)%nat ->
  (List.length pre < Z.to_nat C)%nat \/ (N.of_nat (Z.to_nat C) <= maxArguments)%N ->
  Forall (succeeds processor) pre -> Forall (succeeds processor) post ->
  processor x = Returns (Settles after (Rejected e)) ->
  batchProcess processor maxArguments rangeError fuel (pre ++ x :: post) C
  = (firstn ((List.length pre / Z.to_nat C + 1) * Z.to_nat C) (pre ++ x :: post),
     Some (Settled (Rejected e))).
Proof.
  intros HC Hfuel Hfit Hpre Hpost Hx. unfold batchProcess.
  rewrite batchLoop_chunks by lia. cbn [Z.to_nat skipn].
  apply chunkLoop_reject with after; (assumption || lia).
Qed.

Lemma batchProcess_rejection_finishes_chunk_witness :
  batchProcess
    (fun n : nat => Returns (Settles n (if (n =? 4)%nat then Rejected (Err "four")
                                        else Fulfilled n)))
    125000 (RangeError "Maximum call stack size exceeded")
    4 [1; 2; 3; 4; 5; 6; 7]%nat 3
  = ([1; 2; 3; 4; 5; 6]%nat, Some (Settled (Rejected (Err "four")))).
Proof.
  apply (@batchProcess_rejection_finishes_chunk nat nat jsError
           (fun n : nat => Returns (Settles n (if (n =? 4)%nat then Rejected (Err "four")
                                               else Fulfilled n)))
           125000%N (RangeError "Maximum call stack size exceeded"%string)
           [1; 2; 3]%nat [5; 6; 7]%nat 4%nat 4%nat (Err "four") 3 4%nat).
  - lia.
  - cbn. lia.
  - right. lia.
  - repeat constructor; eexists; reflexivity.
  - repeat constructor; eexists; reflexivity.
  - reflexivity.
Defined.

End BatchRoundsClaims.

(** ** debounce : calls that are delivered, and where deliveries come from *)

Section DebounceHistoryFacts.

Import EventLoop Debounce DebounceHistory.
Local Open Scope N_scope.

Variables Args U : Type.
Variable func : Args -> U -> U * bool.
Variable wait : Z.



Lemma traced_coherent (H : list (N * Args)) (s : state Args U) :
  traced (Timer.ticks wait) H s -> coherent s.
Proof.
  intros (_ & [Hidle|[tm [tc [a (Ht & Hp & _)]]]] & _).
  - now left.
  - right. now exists tm.
Qed.

Lemma call_traced (H : list (N * Args)) (args : Args) (s : state Args U) :
  traced (Timer.ticks wait) H s ->
  traced (Timer.ticks wait) (H ++ [(now (fst s), args)]) (call wait args s).
Proof.
  intro Htr. pose proof (traced_coherent Htr) as Hs.
  destruct Htr as (Hlog & _ & Hcount).
  rewrite call_arms by exact Hs. split; [|split].
  - cbn [snd calls]. intros t a Hin. destruct (Hlog t a Hin) as [tc [Htc ->]].
    exists tc. split; [apply in_or_app; now left|reflexivity].
  - right.
    exists {| handle := fresh (fst s); due := now (fst s) + Timer.ticks wait;
              action := Later args |}, (now (fst s)), args.
    cbn [fst snd timeout pending handle action due].
    repeat split. apply in_or_app. right. now left.
  - cbn [fst snd calls pending]. rewrite length_app. cbn [List.length]. lia.
Qed.

Lemma advance_traced (H : list (N * Args)) (d : N) (s : state Args U) :
  traced (Timer.ticks wait) H s ->
  traced (Timer.ticks wait) H (advance (run func) d s).
Proof.
  destruct s as [[t0 n q] [h log u]]. unfold traced. cbn [fst snd].
  cbn [timeout pending calls].
  intros (Hlog & [->|[tm [tc [a (-> & -> & Ha & Hdue & Hin)]]]] & Hcount).
  - cbn [advance fire now pending fst snd calls]. split; [exact Hlog|].
    split; [now left|exact Hcount].
  - unfold advance. cbn [now pending fire].
    destruct (due tm <=? t0 + d).
    + rewrite Ha. cbn [fire run env calls]. destruct (func a u) as [u' threw].
      cbn [fst snd pending calls]. split; [|split].
      * intros t b Hb. apply in_app_or in Hb. destruct Hb as [Hb|[Hb|[]]].
        -- now apply Hlog.
        -- injection Hb as <- <-. now exists tc.
      * now left.
      * rewrite length_app. cbn [List.length] in *. lia.
    + cbn [fst snd pending calls timeout]. split; [exact Hlog|].
      split; [|exact Hcount].
      right. now exists tm, tc, a.
Qed.

Lemma now_call (args : Args) (s : state Args U) :
  now (fst (call wait args s)) = now (fst s).
Proof.
  destruct s as [l w]. unfold call. cbn [fst].
  destruct (timeout w); reflexivity.
Qed.

Lemma now_advance (d : N) (s : state Args U) :
  now (fst (advance (run func) d s)) = now (fst s) + d.
Proof.
  destruct s as [l w]. unfold advance.
  destruct (fire (run func) (pending l) (now l + d) w). reflexivity.
Qed.

Lemma exec_traced (script : list (step Args)) :
  forall (H : list (N * Args)) (s : state Args U),
    traced (Timer.ticks wait) H s ->
    traced (Timer.ticks wait) (H ++ issued (now (fst s)) script)
           (exec func wait script s).
Proof.
  induction script as [|st script IH]; intros H s Htr.
  - cbn. now rewrite app_nil_r.
  - cbn [exec fold_left]. fold (exec func wait script (exec1 func wait s st)).
    destruct st as [args|d]; cbn [issued exec1].
    + replace (H ++ (now (fst s), args) :: issued (now (fst s)) script)
        with ((H ++ [(now (fst s), args)])
              ++ issued (now (fst (call wait args s))) script)
        by (rewrite now_call, <- app_assoc; reflexivity).
      apply IH, call_traced, Htr.
    + rewrite <- (now_advance d s). apply IH, advance_traced, Htr.
Qed.

End DebounceHistoryFacts.

Section DebounceHistoryClaims.

Import EventLoop Debounce DebounceHistory.
Local Open Scope N_scope.



(** X7.  Whatever calls are made and however time passes, every call
    of [func] by the debounced function happens exactly [D] after a call
    of the debounced function and with the arguments of that call, where
    [D] is the time the timer runs ([wait], or 1 when [wait] is not
    between 1 and [TIMEOUT_MAX]); and [func] is called no more often than
    the debounced function. *)
Theorem debounce_provenance (Args U : Type) (func : Args -> U -> U * bool)
    (wait : Z) (t0 : N) (u : U) (script : list (step Args)) :
  (forall t a,
      In (t, a) (calls (snd (exec func wait script (debounce Args t0 u)))) ->
      exists tc, In (tc, a) (issued t0 script) /\ t = tc + Timer.ticks wait) /\
  (List.length (calls (snd (exec func wait script (debounce Args t0 u))))
   <= List.length (issued t0 script))%nat /\
  ((1 <= wait <= Timer.TIMEOUT_MAX)%Z -> Timer.ticks wait = Z.to_N wait).
Proof.
  assert (traced (Timer.ticks wait) [] (debounce Args t0 u)) as Hinit.
  { split; [intros t a []|]. split; [now left|cbn; lia]. }
  destruct (@exec_traced Args U func wait script [] _ Hinit) as (Hlog & _ & Hcount).
  cbn [app debounce fst now idle] in *.
  split; [exact Hlog|]. split; [lia|apply ticks_in_range].
Qed.

Lemma debounce_provenance_witness :
  exists tc,
    In (tc, 2%nat) (issued 0 [Call 1%nat; Wait nat 50; Call 2%nat; Wait nat 200]) /\
    150 = tc + Timer.ticks 100.
Proof.
  destruct (@debounce_provenance nat (list nat) (fun a u => (a :: u, false)) 100 0 []
              [Call 1%nat; Wait nat 50; Call 2%nat; Wait nat 200]) as [Hfrom _].
  apply (Hfrom 150 2%nat). cbn. now left.
Defined.

End DebounceHistoryClaims.

(** ** throttle : the rate of calls *)

Section ThrottleSpacingFacts.

Import EventLoop Throttle ThrottleSpacing.
Local Open Scope N_scope.

Variables Args U : Type.
Variable func : Args -> U -> U * bool.
Variable limit : Z.

Hypothesis func_returns : forall a u, snd (func a u) = false.

Lemma lastInstant_snoc (log : list (N * Args)) (t : N) (a : Args) :
  lastInstant (log ++ [(t, a)]) = Some t.
Proof. unfold lastInstant. now rewrite rev_unit. Qed.

Lemma lastInstant_cons (x y : N * Args) (log : list (N * Args)) :
  lastInstant (x :: y :: log) = lastInstant (y :: log).
Proof.
  unfold lastInstant. cbn [rev].
  destruct (rev log ++ [y]) as [|z r] eqn:Hr; [|reflexivity].
  apply app_eq_nil in Hr. destruct Hr as [_ Hr]. discriminate.
Qed.

Lemma spaced_snoc (gap : N) (log : list (N * Args)) (t' : N) (a' : Args) :
  spaced gap log ->
  (forall t, lastInstant log = Some t -> t + gap <= t') ->
  spaced gap (log ++ [(t', a')]).
Proof.
  induction log as [|[t1 a1] log IH]; intros Hsp Hlast; [exact I|].
  destruct log as [|[t2 a2] log].
  - cbn. split; [|exact I]. apply Hlast. reflexivity.
  - cbn [app]. cbn [spaced] in Hsp |- *. destruct Hsp as [H12 Hrest].
    split; [exact H12|]. apply IH; [exact Hrest|].
    intros t Ht. apply Hlast. now rewrite lastInstant_cons.
Qed.

Lemma call_metered (args : Args) (s : state Args U) :
  metered (Timer.ticks limit) s ->
  metered (Timer.ticks limit) (call func limit args s).
Proof.
  intro Hm. destruct (inThrottle (snd s)) eqn:Hb.
  - now rewrite call_locked.
  - assert (coherent s) as Hs.
    { destruct Hm as (_ & [(Hu & Hq & _)|(Hl & _)]); [|congruence].
      left. now split. }
    rewrite call_unlocked by (assumption || apply func_returns).
    destruct Hm as (Hsp & [(_ & _ & Hlast)|(Hl & _)]); [|congruence].
    split; [cbn [snd calls]; now apply spaced_snoc|].
    right. split; [reflexivity|].
    exists {| handle := fresh (fst s); due := now (fst s) + Timer.ticks limit;
              action := Unlock |}, (now (fst s)).
    split; [reflexivity|]. split; [apply lastInstant_snoc|reflexivity].
Qed.

Lemma advance_metered (d : N) (s : state Args U) :
  metered (Timer.ticks limit) s ->
  metered (Timer.ticks limit) (advance (@run Args U) d s).
Proof.
  destruct s as [[t0 n q] [b log u]]. unfold metered. cbn [fst snd].
  cbn [inThrottle pending calls now].
  intros (Hsp & [(-> & -> & Hlast)|(-> & [tm [t (-> & Ht & Hdue)]])]).
  - cbn [advance fire fst snd now pending calls inThrottle].
    split; [exact Hsp|]. left. split; [reflexivity|].
    split; [reflexivity|]. intros t Ht. specialize (Hlast t Ht). lia.
  - unfold advance. cbn [now pending fire].
    destruct (N.leb_spec (due tm) (t0 + d)) as [Hfire|Hkeep].
    + destruct (action tm).
      cbn [fire run fst snd now pending calls inThrottle].
      split; [exact Hsp|]. left.
      split; [reflexivity|]. split; [reflexivity|].
      intros t' Ht'. rewrite Ht in Ht'. injection Ht' as <-. lia.
    + cbn [fst snd now pending calls inThrottle].
      split; [exact Hsp|]. right. split; [reflexivity|].
      now exists tm, t.
Qed.

Lemma exec_metered (script : list (step Args)) (s : state Args U) :
  metered (Timer.ticks limit) s ->
  metered (Timer.ticks limit) (exec func limit script s).
Proof.
  revert s. induction script as [|st script IH]; intros s H; [exact H|].
  cbn [exec fold_left]. apply IH. destruct st as [args|d].
  - now apply call_metered.
  - now apply advance_metered.
Qed.

End ThrottleSpacingFacts.

Section ThrottleSpacingClaims.

Import EventLoop Throttle ThrottleSpacing.
Local Open Scope N_scope.

(** X8.  When [func] never throws : whatever calls are made to the
    function returned by [throttle(func, limit)] and however time passes
    between them, two successive calls of [func] are at least [D] apart,
    where [D] is the time the timer runs : [limit] when it lies between 1
    and [TIMEOUT_MAX], and 1 when it does not. *)
Theorem throttle_rate (Args U : Type) (func : Args -> U -> U * bool)
    (limit : Z) (t0 : N) (u : U) (script : list (step Args)) :
  (forall a v, snd (func a v) = false) ->
  spaced (Timer.ticks limit)
         (calls (snd (exec func limit script (throttle Args t0 u)))) /\
  ((1 <= limit <= Timer.TIMEOUT_MAX)%Z -> Timer.ticks limit = Z.to_N limit).
Proof.
  intro Hf. split; [|apply ticks_in_range].
  apply (@exec_metered Args U func limit Hf script (throttle Args t0 u)).
  split; [exact I|]. left. split; [reflexivity|]. split; [reflexivity|].
  intros t Ht. discriminate.
Qed.

Lemma throttle_rate_witness :
  spaced (Timer.ticks 100)
         (calls (snd (exec (fun (a : nat) (u : list nat) => (a :: u, false)) 100
                        [Call 1%nat; Wait nat 30; Call 2%nat; Wait nat 80; Call 3%nat]
                        (throttle nat 0 [])))).
Proof.
  apply (@throttle_rate nat (list nat) (fun a u => (a :: u, false)) 100 0 []
           [Call 1%nat; Wait nat 30; Call 2%nat; Wait nat 80; Call 3%nat]).
  reflexivity.
Defined.

End ThrottleSpacingClaims.

(** ** timeout : the timer is left running *)

Section TimeoutTimerClaims.

Import EventLoop Timeout.
Local Open Scope N_scope.

(** X9.  When the promise settles before the timer of [timeout] is
    due, [timeout] does not clear that timer : it stays pending until the
    time [D] it runs for has passed ([ms], or 1 when [ms] is not between 1
    and [TIMEOUT_MAX]), and when it fires then, the returned promise keeps
    the outcome it took from the promise. *)
Theorem timeout_timer_stays (E T : Type) (numberToString : Z -> string)
    (t d : N) (ms : Z) (o : settled E T) :
  t < Timer.ticks ms -> t <= d ->
  advance (run numberToString) d (timeout (Some (t, o)) ms)
  = ({| now := d;
        fresh := 3;
        pending := if Timer.ticks ms <=? d then []
                   else [{| handle := 2; due := Timer.ticks ms;
                            action := RejectRace E T ms |}] |},
     {| input := Some o; race := Some (t, adopt o) |}) /\
  ((1 <= ms <= Timer.TIMEOUT_MAX)%Z -> Timer.ticks ms = Z.to_N ms).
Proof.
  intros Hlt Hd. split; [|apply ticks_in_range].
  unfold timeout, inFlight, advance, setTimeout, register.
  cbn [idle now fresh pending snd fst enqueue due fire action handle].
  rewrite !N.add_0_l.
  replace (Timer.ticks ms <? t) with false by (symmetry; apply N.ltb_ge; lia).
  cbn [fire due action].
  replace (t <=? d) with true by (symmetry; apply N.leb_le; lia).
  cbn [fire due action run settleRace race input].
  destruct (Timer.ticks ms <=? d); reflexivity.
Qed.

Lemma timeout_timer_stays_witness :
  pending (fst (advance (@run jsError nat decimal) 10
                  (timeout (Some (5, Fulfilled 42%nat)) 20)))
  = [{| handle := 2; due := 20; action := RejectRace jsError nat 20 |}].
Proof.
  destruct (@timeout_timer_stays jsError nat decimal 5 10 20 (Fulfilled 42%nat))
    as [Hstate _].
  - vm_compute. reflexivity.
  - vm_compute. discriminate.
  - rewrite Hstate. reflexivity.
Defined.

End TimeoutTimerClaims.

(** ** PerformanceUtils *)

Section PerformanceFacts.

Import stdpp.base stdpp.strings stdpp.gmap.
Import PerformanceUtils.
Local Open Scope Z_scope.

Lemma endTimer_running (name : string) (s : perf) (startTime : Z) :
  timers s !! name = Some startTime -> startTime <> 0 ->
  endTimer name s
  = (inr (clock s - startTime),
     {| timers := delete name (timers s); clock := clock s; console := console s |}).
Proof.
  intros Hlook Hne. unfold endTimer. rewrite Hlook.
  now replace (startTime =? 0) with false by (symmetry; apply Z.eqb_neq; exact Hne).
Qed.

Lemma endTimer_missing (name : string) (s : perf) :
  timers s !! name = None -> endTimer name s = (inl (notStarted name), s).
Proof. intro Hlook. unfold endTimer. now rewrite Hlook. Qed.

(** X10.  A timer started when [Date.now()] is not 0 and ended at time
    [t] yields the time elapsed and is removed, together with any timer of
    that name started before; ending it a second time throws
    [Timer 'name' was not started]; timers of other names are untouched. *)
Theorem timer_start_end (name : string) (s : perf) (t : Z) :
  clock s <> 0 ->
  endTimer name (atTime t (startTimer name s))
  = (inr (t - clock s),
     {| timers := delete name (timers s); clock := t; console := console s |}) /\
  endTimer name (snd (endTimer name (atTime t (startTimer name s))))
  = (inl (notStarted name),
     {| timers := delete name (timers s); clock := t; console := console s |}) /\
  (forall other,
      other <> name ->
      timers (snd (endTimer name (atTime t (startTimer name s)))) !! other
      = timers s !! other).
Proof.
  intro Hclock.
  assert (endTimer name (atTime t (startTimer name s))
          = (inr (t - clock s),
             {| timers := delete name (timers s); clock := t; console := console s |}))
    as Hend.
  { rewrite (@endTimer_running name _ (clock s)).
    - cbn. now rewrite delete_insert_eq.
    - cbn. apply lookup_insert_eq.
    - exact Hclock. }
  rewrite Hend. split; [reflexivity|]. split.
  - cbn [snd]. apply endTimer_missing. cbn. apply lookup_delete_eq.
  - intros other Hother. cbn. now apply lookup_delete_ne.
Qed.

Lemma timer_start_end_witness :
  fst (endTimer "load"
         (atTime 1250 (startTimer "load"
                         {| timers := ∅; clock := 1000; console := [] |})))
  = inr 250.
Proof.
  destruct (@timer_start_end "load" {| timers := ∅; clock := 1000; console := [] |}
              1250 ltac:(cbn; lia)) as [Hend _].
  rewrite Hend. reflexivity.
Defined.

Lemma measure_passes (T : Type) (name : string)
    (fn : perf -> (jsError + T) * perf) (s s1 : perf) (r : jsError + T) :
  clock s <> 0 ->
  fn (startTimer name s) = (r, s1) ->
  timers s1 !! name = Some (clock s) ->
  measure name fn s
  = (r,
     {| timers := delete name (timers s1);
        clock := clock s1;
        console := console s1
                   ++ match r with
                      | inr _ => [(name, clock s1 - clock s)]
                      | inl _ => []
                      end |}).
Proof.
  intros Hclock Hfn Hkept. unfold measure. rewrite Hfn.
  rewrite (endTimer_running name s1 Hkept Hclock).
  destruct r as [error|result]; cbn; [|reflexivity].
  now rewrite app_nil_r.
Qed.

(** X11.  When [Date.now()] is not 0 at the start and [fn] leaves the
    timer called [name] as [measure] set it, [measure(name, fn)] returns
    what [fn] returns, or throws what [fn] throws, and in both cases the
    timer is removed afterwards; the duration is logged only when [fn]
    returns. *)
Theorem measure_transparent (T : Type) (name : string)
    (fn : perf -> (jsError + T) * perf) (s s1 : perf) (r : jsError + T) :
  clock s <> 0 ->
  fn (startTimer name s) = (r, s1) ->
  timers s1 !! name = Some (clock s) ->
  measure name fn s
  = (r,
     {| timers := delete name (timers s1);
        clock := clock s1;
        console := console s1
                   ++ match r with
                      | inr _ => [(name, clock s1 - clock s)]
                      | inl _ => []
                      end |}).
Proof. apply measure_passes. Qed.

Lemma measure_transparent_witness :
  fst (measure "job" (fun s => (inr 7%nat, atTime 1300 s))
         {| timers := ∅; clock := 1000; console := [] |})
  = inr 7%nat.
Proof.
  rewrite (@measure_transparent nat "job" (fun s => (inr 7%nat, atTime 1300 s))
             {| timers := ∅; clock := 1000; console := [] |}
             (atTime 1300 (startTimer "job"
                             {| timers := ∅; clock := 1000; console := [] |}))
             (inr 7%nat)).
  - reflexivity.
  - cbn. lia.
  - reflexivity.
  - cbn. apply lookup_insert_eq.
Defined.

(** X12.  [measure] is not re-entrant for one name : when the measured
    function is itself [measure(name, g)] with the same name, the inner
    call removes the timer, and the outer call throws
    [Timer 'name' was not started] although [g] has returned a value. *)
Theorem measure_same_name_nested (T : Type) (name : string)
    (g : perf -> (jsError + T) * perf) (s s2 : perf) (v : T) :
  clock s <> 0 ->
  g (startTimer name (startTimer name s)) = (inr v, s2) ->
  timers s2 !! name = Some (clock s) ->
  measure name (measure name g) s
  = (inl (notStarted name),
     {| timers := delete name (timers s2);
        clock := clock s2;
        console := console s2 ++ [(name, clock s2 - clock s)] |}).
Proof.
  intros Hclock Hg Hkept.
  assert (measure name g (startTimer name s)
          = (inr v,
             {| timers := delete name (timers s2);
                clock := clock s2;
                console := console s2 ++ [(name, clock s2 - clock s)] |}))
    as Hinner.
  { apply (@measure_passes T name g (startTimer name s) s2 (inr v));
      [exact Hclock|exact Hg|exact Hkept]. }
  unfold measure at 1. rewrite Hinner.
  rewrite endTimer_missing by (cbn; apply lookup_delete_eq).
  rewrite endTimer_missing by (cbn; apply lookup_delete_eq).
  reflexivity.
Qed.

Lemma measure_same_name_nested_witness :
  fst (measure "job" (measure "job" (fun s => (inr 7%nat, atTime 1300 s)))
         {| timers := ∅; clock := 1000; console := [] |})
  = inl (notStarted "job").
Proof.
  rewrite (@measure_same_name_nested nat "job" (fun s => (inr 7%nat, atTime 1300 s))
             {| timers := ∅; clock := 1000; console := [] |}
             (atTime 1300 (startTimer "job" (startTimer "job"
                             {| timers := ∅; clock := 1000; console := [] |})))
             7%nat).
  - reflexivity.
  - cbn. lia.
  - reflexivity.
  - cbn. apply lookup_insert_eq.
Defined.

End PerformanceFacts.

(** ** EnvUtils *)

Section EnvFacts.

Import stdpp.base stdpp.strings stdpp.gmap.
Import EnvUtils.

(** X13.  [requireEnvVar] returns the text of a variable exactly when
    the variable is set to a non-empty string, which is exactly when
    [getEnvVar] without a default returns that text; a variable set to
    the empty string counts as unset, so [getEnvVar] returns the default
    for it.  For a name that is no variable but that [process.env]
    inherits from [Object.prototype], [requireEnvVar] does not throw: it
    returns what is inherited, and so does [getEnvVar], whatever the
    default. *)
Theorem env_empty_is_unset (env : gmap string string) (key value : string) :
  (requireEnvVar env key = inr (Text value)
   <-> env !! key = Some value /\ value <> EmptyString) /\
  (getEnvVar env key None = Some (Text value)
   <-> requireEnvVar env key = inr (Text value)) /\
  (env !! key = Some EmptyString ->
   forall defaultValue,
     getEnvVar env key defaultValue = option_map Text defaultValue) /\
  (env !! key = None -> ObjectPrototype.isInherited key = true ->
   requireEnvVar env key = inr (Inherited key) /\
   forall defaultValue, getEnvVar env key defaultValue = Some (Inherited key)).
Proof.
  unfold requireEnvVar, getEnvVar, envLookup. split; [|split; [|split]].
  - destruct (env !! key) as [w|].
    + destruct w as [|c w]; cbn.
      * split; [discriminate|]. intros [H Hne]. injection H as <-. now destruct Hne.
      * split.
        -- intro H. injection H as <-. split; [reflexivity|discriminate].
        -- intros [H _]. now injection H as <-.
    + destruct (ObjectPrototype.isInherited key); cbn;
        (split; [discriminate|intros [H _]; discriminate]).
  - destruct (env !! key) as [w|].
    + destruct w as [|c w]; cbn; split; try discriminate;
        intro H; injection H as <-; reflexivity.
    + destruct (ObjectPrototype.isInherited key); cbn; split; discriminate.
  - intros -> defaultValue. reflexivity.
  - intros -> ->. split; [reflexivity|]. intro defaultValue. reflexivity.
Qed.

Lemma env_empty_is_unset_witness :
  getEnvVar (<["API_URL"%string := EmptyString]> ∅)
            "API_URL"%string (Some "http://localhost"%string)
  = Some (Text "http://localhost"%string).
Proof.
  destruct (@env_empty_is_unset (<["API_URL"%string := EmptyString]> ∅)
              "API_URL"%string EmptyString) as (_ & _ & Hempty & _).
  apply (Hempty (lookup_insert_eq _ _ _) (Some "http://localhost"%string)).
Defined.

End EnvFacts.

(** ** isValidEmail *)

Section EmailFacts.

Import Email.
Local Open Scope N_scope.

Lemma nullable_Matches (r : regex) : nullable r = true <-> Matches r [].
Proof.
  induction r as [| |p|r1 IH1 r2 IH2|r1 IH1 r2 IH2|r IH]; cbn.
  - split; [discriminate|]. intro H. inversion H.
  - split; [constructor|reflexivity].
  - split; [discriminate|]. intro H. inversion H.
  - rewrite andb_true_iff, IH1, IH2. split.
    + intros [H1 H2]. exact (MCat H1 H2).
    + intro H. inversion H as [| |r1' r2' s1 s2 H1 H2| | | |]; subst.
      match goal with
      | Hnil : _ ++ _ = [] |- _ =>
        apply app_eq_nil in Hnil; destruct Hnil as [-> ->]
      end.
      now split.
  - rewrite orb_true_iff, IH1, IH2. split.
    + intros [H|H]; [now apply MAltL|now apply MAltR].
    + intro H. inversion H; subst; [now left|now right].
  - split; [constructor|reflexivity].
Qed.

(** A match of [Star r] on a non-empty string starts with a non-empty
    match of [r]. *)
Lemma Matches_Star_cons (r : regex) (c : N) (s : list N) :
  Matches (Star r) (c :: s) ->
  exists s1 s2, s = s1 ++ s2 /\ Matches r (c :: s1) /\ Matches (Star r) s2.
Proof.
  intro H. remember (Star r) as r' eqn:Hr. remember (c :: s) as cs eqn:Hcs.
  revert r c s Hr Hcs.
  induction H as [|p c' Hp|r1 r2 s1 s2 H1 IH1 H2 IH2|r1 r2 s0 H0 IH0
                  |r1 r2 s0 H0 IH0|r0|r0 s1 s2 H1 IH1 H2 IH2];
    intros r c s Hr Hcs; try discriminate.
  injection Hr as ->. destruct s1 as [|c1 s1].
  - cbn in Hcs. now apply IH2.
  - cbn in Hcs. injection Hcs as -> <-. now exists s1, s2.
Qed.

Lemma Matches_Cat_inv (r1 r2 : regex) (s : list N) :
  Matches (Cat r1 r2) s ->
  exists s1 s2, s = s1 ++ s2 /\ Matches r1 s1 /\ Matches r2 s2.
Proof. intro H. inversion H; subst. eauto. Qed.

Lemma Matches_Alt_inv (r1 r2 : regex) (s : list N) :
  Matches (Alt r1 r2) s -> Matches r1 s \/ Matches r2 s.
Proof. intro H. inversion H; subst; [now left|now right]. Qed.

Lemma derivative_Matches (r : regex) :
  forall (c : N) (s : list N),
    Matches (derivative c r) s <-> Matches r (c :: s).
Proof.
  induction r as [| |p|r1 IH1 r2 IH2|r1 IH1 r2 IH2|r IH]; intros c s; cbn.
  - split; intro H; inversion H.
  - split; intro H; inversion H.
  - destruct (p c) eqn:Hp; split; intro H.
    + inversion H; subst. now constructor.
    + inversion H; subst. constructor.
    + inversion H.
    + inversion H; subst. congruence.
  - destruct (nullable r1) eqn:Hn.
    + split; intro H.
      * apply Matches_Alt_inv in H. destruct H as [H|H].
        -- apply Matches_Cat_inv in H. destruct H as [s1 [s2 (-> & H1 & H2)]].
           apply IH1 in H1. exact (MCat H1 H2).
        -- apply IH2 in H. apply nullable_Matches in Hn. exact (MCat Hn H).
      * apply Matches_Cat_inv in H. destruct H as [s1 [s2 (Heq & H1 & H2)]].
        destruct s1 as [|c1 s1].
        -- cbn in Heq. subst s2. apply MAltR. now apply IH2.
        -- cbn in Heq. injection Heq as <- ->. apply MAltL.
           apply IH1 in H1. exact (MCat H1 H2).
    + split; intro H.
      * apply Matches_Cat_inv in H. destruct H as [s1 [s2 (-> & H1 & H2)]].
        apply IH1 in H1. exact (MCat H1 H2).
      * apply Matches_Cat_inv in H. destruct H as [s1 [s2 (Heq & H1 & H2)]].
        destruct s1 as [|c1 s1].
        -- apply nullable_Matches in H1. congruence.
        -- cbn in Heq. injection Heq as <- ->.
           apply IH1 in H1. exact (MCat H1 H2).
  - split; intro H; apply Matches_Alt_inv in H; destruct H as [H|H].
    + apply MAltL. now apply IH1.
    + apply MAltR. now apply IH2.
    + apply MAltL. now apply IH1.
    + apply MAltR. now apply IH2.
  - split; intro H.
    + apply Matches_Cat_inv in H. destruct H as [s1 [s2 (-> & H1 & H2)]].
      apply IH in H1. exact (MStarCons H1 H2).
    + destruct (Matches_Star_cons H) as [s1 [s2 (-> & H1 & H2)]].
      apply IH in H1. exact (MCat H1 H2).
Qed.

Lemma test_Matches (s : list N) :
  forall r : regex, test r s = true <-> Matches r s.
Proof.
  induction s as [|c s IH]; intro r; cbn [test].
  - apply nullable_Matches.
  - rewrite IH. apply derivative_Matches.
Qed.

(** One or more code units of a class. *)
Lemma Matches_Star_Class (p : N -> bool) (s : list N) :
  Matches (Star (Class p)) s <-> Forall (fun c => p c = true) s.
Proof.
  split.
  - intro H. remember (Star (Class p)) as r eqn:Hr.
    induction H as [|p' c' Hp|r1 r2 s1 s2 H1 IH1 H2 IH2|r1 r2 s0 H0 IH0
                    |r1 r2 s0 H0 IH0|r0|r0 s1 s2 H1 IH1 H2 IH2];
      try discriminate.
    + constructor.
    + injection Hr as ->. inversion H1; subst. cbn. constructor; [assumption|].
      now apply IH2.
  - intro H. induction H as [|c s Hc Hs IH]; [constructor|].
    change (c :: s) with ([c] ++ s). apply MStarCons; [now constructor|exact IH].
Qed.

Lemma Matches_Plus_Class (p : N -> bool) (s : list N) :
  Matches (Plus (Class p)) s <-> s <> [] /\ Forall (fun c => p c = true) s.
Proof.
  unfold Plus. split.
  - intro H. apply Matches_Cat_inv in H. destruct H as [s1 [s2 (-> & H1 & H2)]].
    inversion H1; subst. cbn. split; [discriminate|].
    constructor; [assumption|]. now apply Matches_Star_Class.
  - intros [Hne Hall]. destruct s as [|c s]; [congruence|].
    inversion Hall; subst. change (c :: s) with ([c] ++ s).
    apply MCat; [now constructor|now apply Matches_Star_Class].
Qed.

Lemma Matches_literal (k : N) (s : list N) :
  Matches (Class (N.eqb k)) s <-> s = [k].
Proof.
  split.
  - intro H. inversion H; subst. f_equal. symmetry. now apply N.eqb_eq.
  - intros ->. constructor. apply N.eqb_refl.
Qed.

End EmailFacts.

Section EmailClaims.

Import Email.
Local Open Scope N_scope.

Lemma isValidEmail_form (email : list N) :
  isValidEmail email = true <->
  exists loc dom rest,
    email = loc ++ at_ :: dom ++ dot :: rest /\
    loc <> [] /\ dom <> [] /\ rest <> [] /\
    Forall (fun c => plain c = true) loc /\
    Forall (fun c => plain c = true) dom /\
    Forall (fun c => plain c = true) rest.
Proof.
  unfold isValidEmail. rewrite test_Matches. unfold emailRegex. split.
  - intro H.
    apply Matches_Cat_inv in H. destruct H as [loc [s1 (-> & Hloc & H)]].
    apply Matches_Cat_inv in H. destruct H as [a [s2 (-> & Ha & H)]].
    apply Matches_Cat_inv in H. destruct H as [dom [s3 (-> & Hdom & H)]].
    apply Matches_Cat_inv in H. destruct H as [d [rest (-> & Hd & Hrest)]].
    apply Matches_literal in Ha, Hd. subst a d.
    apply Matches_Plus_Class in Hloc, Hdom, Hrest.
    exists loc, dom, rest. cbn [app]. tauto.
  - intros [loc [dom [rest (-> & Hl & Hd & Hr & Hlp & Hdp & Hrp)]]].
    apply MCat; [now apply Matches_Plus_Class|].
    change (at_ :: dom ++ dot :: rest) with ([at_] ++ dom ++ [dot] ++ rest).
    apply MCat; [now apply Matches_literal|].
    apply MCat; [now apply Matches_Plus_Class|].
    apply MCat; [now apply Matches_literal|now apply Matches_Plus_Class].
Qed.

(** X14.  [isValidEmail] accepts exactly the strings of the form
    [local @ domain . rest] in which [local], [domain] and [rest] are
    non-empty and hold neither white space nor [@] (the dot that is
    required may be any dot after the [@] that is neither the first nor
    the last code unit after it). *)
Theorem isValidEmail_shape (email : list N) :
  isValidEmail email = true <->
  exists loc dom rest,
    email = loc ++ at_ :: dom ++ dot :: rest /\
    loc <> [] /\ dom <> [] /\ rest <> [] /\
    Forall (fun c => plain c = true) loc /\
    Forall (fun c => plain c = true) dom /\
    Forall (fun c => plain c = true) rest.
Proof. apply isValidEmail_form. Qed.

Lemma isValidEmail_shape_witness :
  isValidEmail (codeUnits "user@example.com") = true.
Proof.
  apply (proj2 (isValidEmail_shape (codeUnits "user@example.com"))).
  exists (codeUnits "user"), (codeUnits "example"), (codeUnits "com").
  split; [reflexivity|].
  repeat split; try discriminate; repeat constructor.
Defined.

Lemma plain_not_at (c : N) : plain c = true -> c <> at_ /\ isWhiteSpace c = false.
Proof.
  unfold plain. rewrite negb_true_iff, orb_false_iff, N.eqb_neq. tauto.
Qed.

Lemma count_plain (s : list N) :
  Forall (fun c => plain c = true) s -> count_occ N.eq_dec s at_ = 0%nat.
Proof.
  intro H. apply count_occ_not_In. intro Hin.
  rewrite Forall_forall in H. apply H, plain_not_at in Hin. tauto.
Qed.

(** X15.  A string that [isValidEmail] accepts holds exactly one [@]
    and no white space, and is at least five code units long. *)
Theorem isValidEmail_one_at (email : list N) :
  isValidEmail email = true ->
  count_occ N.eq_dec email at_ = 1%nat /\
  Forall (fun c => isWhiteSpace c = false) email /\
  (5 <= List.length email)%nat.
Proof.
  intro H. apply isValidEmail_form in H.
  destruct H as [loc [dom [rest (-> & Hl & Hd & Hr & Hlp & Hdp & Hrp)]]].
  split; [|split].
  - rewrite count_occ_app. cbn [count_occ].
    destruct (N.eq_dec at_ at_) as [_|Hne]; [|congruence].
    rewrite count_occ_app. cbn [count_occ].
    destruct (N.eq_dec dot at_) as [Heq|_]; [discriminate|].
    rewrite !count_plain by assumption. reflexivity.
  - assert (forall s, Forall (fun c => plain c = true) s ->
                      Forall (fun c => isWhiteSpace c = false) s) as Hws.
    { intros s Hs. eapply Forall_impl; [|exact Hs].
      intros c Hc. now apply plain_not_at in Hc. }
    apply Forall_app. split; [now apply Hws|].
    constructor; [reflexivity|].
    apply Forall_app. split; [now apply Hws|].
    constructor; [reflexivity|now apply Hws].
  - rewrite length_app. cbn [List.length]. rewrite length_app. cbn [List.length].
    destruct loc; [congruence|]. destruct dom; [congruence|].
    destruct rest; [congruence|]. cbn [List.length]. lia.
Qed.

Lemma isValidEmail_one_at_witness :
  count_occ N.eq_dec (codeUnits "user@example.com") at_ = 1%nat.
Proof.
  apply (@isValidEmail_one_at (codeUnits "user@example.com")).
  reflexivity.
Defined.

End EmailClaims.

(** ** getNestedValue, setNestedValue, removeUndefined, mergeDeep *)

Section ObjectFacts.

Import Objects.

Variable Prim : Type.
Variable truthyPrim : Prim -> bool.

Lemma lookup_assign_eq (ps : list (string * value Prim)) (k : string) (v : value Prim) :
  lookup (assign ps k v) k = Some v.
Proof.
  induction ps as [|[k' w] ps IH]; cbn.
  - now rewrite String.eqb_refl.
  - destruct (String.eqb k' k) eqn:Hk; cbn; rewrite Hk; [reflexivity|exact IH].
Qed.

Lemma lookup_assign_ne (ps : list (string * value Prim)) (k k' : string) (v : value Prim) :
  k <> k' -> lookup (assign ps k v) k' = lookup ps k'.
Proof.
  intro Hne. induction ps as [|[k0 w] ps IH]; cbn.
  - now replace (String.eqb k k') with false by (symmetry; now apply String.eqb_neq).
  - destruct (String.eqb k0 k) eqn:Hk; cbn.
    + apply String.eqb_eq in Hk. subst k0.
      now replace (String.eqb k k') with false by (symmetry; now apply String.eqb_neq).
    + destruct (String.eqb k0 k'); [reflexivity|exact IH].
Qed.

Lemma prop_assign_eq (ps : list (string * value Prim)) (k : string) (v : value Prim) :
  prop (assign ps k v) k = v.
Proof. unfold prop. now rewrite lookup_assign_eq. Qed.

Lemma prop_assign_ne (ps : list (string * value Prim)) (k k' : string) (v : value Prim) :
  k <> k' -> prop (assign ps k v) k' = prop ps k'.
Proof. intro H. unfold prop. now rewrite lookup_assign_ne. Qed.

Lemma split_cons (path : string) : exists k ks, split path = k :: ks.
Proof.
  induction path as [|c path [k [ks IH]]]; cbn [split]; [eauto|].
  rewrite IH. destruct (String.eqb (String c EmptyString) "."); eauto.
Qed.

(** Walking through an object that holds nothing yields the default. *)
Lemma walk_empty (k : string) (ks : list string) (d : value Prim) :
  walk (k :: ks) (VObject []) d = d.
Proof. cbn. destruct ks; reflexivity. Qed.

Lemma walk_not_object (k : string) (ks : list string) (v d : value Prim) :
  isObject v = false -> walk (k :: ks) v d = d.
Proof. destruct v; cbn; [reflexivity|reflexivity|reflexivity|discriminate]. Qed.

Lemma setPath_cons (k k' : string) (ks : list string) (ps : list (string * value Prim))
    (v : value Prim) :
  truthyKey k = true ->
  setPath (k :: k' :: ks) ps v
  = assign ps k
      (VObject (setPath (k' :: ks)
                  (match lookup ps k with
                   | Some (VObject sub) => sub
                   | _ => []
                   end) v)).
Proof. intro Hk. cbn [setPath]. now rewrite Hk. Qed.

Lemma setPath_skip (k k' : string) (ks : list string)
    (ps : list (string * value Prim)) (v : value Prim) :
  truthyKey k = false ->
  setPath (k :: k' :: ks) ps v = setPath (k' :: ks) ps v.
Proof. intro Hk. cbn [setPath]. now rewrite Hk. Qed.

(** What was set is what is read. *)
Lemma walk_setPath (keys : list string) :
  forall (ps : list (string * value Prim)) (v d : value Prim),
    keys <> [] ->
    Forall (fun k => truthyKey k = true) keys ->
    walk keys (VObject (setPath keys ps v)) d
    = match v with VUndefined => d | _ => v end.
Proof.
  induction keys as [|k keys IH]; intros ps v d Hne Hkeys; [congruence|].
  inversion Hkeys as [|k0 ks0 Hk Hrest]; subst.
  destruct keys as [|k' keys].
  - cbn [setPath walk]. rewrite Hk, prop_assign_eq. reflexivity.
  - rewrite setPath_cons by exact Hk.
    cbn [walk]. rewrite prop_assign_eq. apply IH; [discriminate|exact Hrest].
Qed.

(** Setting along one path leaves what is read along a path that parts
    from it unchanged. *)
Lemma walk_setPath_other (pre : list string) :
  forall (k1 k2 : string) (r1 r2 : list string) (ps : list (string * value Prim)) (v d : value Prim),
    k1 <> k2 ->
    Forall (fun k => truthyKey k = true) (pre ++ [k1]) ->
    walk (pre ++ k2 :: r2) (VObject (setPath (pre ++ k1 :: r1) ps v)) d
    = walk (pre ++ k2 :: r2) (VObject ps) d.
Proof.
  induction pre as [|k pre IH]; intros k1 k2 r1 r2 ps v d Hne Hkeys.
  - cbn [app] in *. inversion Hkeys as [|k0 ks0 Hk1 _]; subst.
    cbn [walk]. destruct r1 as [|k' r1].
    + cbn [setPath]. rewrite Hk1. now rewrite prop_assign_ne.
    + rewrite setPath_cons by exact Hk1. now rewrite prop_assign_ne.
  - cbn [app] in *. inversion Hkeys as [|k0 ks0 Hk Hrest]; subst.
    destruct (pre ++ k1 :: r1) as [|k' rest1] eqn:Hrest1;
      [destruct pre; discriminate|].
    rewrite setPath_cons by exact Hk. rewrite <- Hrest1.
    cbn [walk]. rewrite prop_assign_eq. unfold prop.
    destruct (lookup ps k) as [[| |p|sub]|].
    + rewrite IH by assumption.
      destruct (pre ++ k2 :: r2) as [|k'' rest2] eqn:Hrest2;
        [destruct pre; discriminate|].
      now rewrite walk_empty, walk_not_object.
    + rewrite IH by assumption.
      destruct (pre ++ k2 :: r2) as [|k'' rest2] eqn:Hrest2;
        [destruct pre; discriminate|].
      now rewrite walk_empty, walk_not_object.
    + rewrite IH by assumption.
      destruct (pre ++ k2 :: r2) as [|k'' rest2] eqn:Hrest2;
        [destruct pre; discriminate|].
      now rewrite walk_empty, walk_not_object.
    + now apply IH.
    + rewrite IH by assumption.
      destruct (pre ++ k2 :: r2) as [|k'' rest2] eqn:Hrest2;
        [destruct pre; discriminate|].
      now rewrite walk_empty, walk_not_object.
Qed.

(** With an empty last key nothing is assigned. *)
Lemma setPath_empty_last (init : list string) :
  forall (ps : list (string * value Prim)) (v w : value Prim),
    setPath (init ++ [EmptyString]) ps v = setPath (init ++ [EmptyString]) ps w.
Proof.
  induction init as [|k init IH]; intros ps v w; [reflexivity|].
  cbn [app]. destruct (init ++ [EmptyString]) as [|k' rest] eqn:Hrest;
    [destruct init; discriminate|].
  destruct (truthyKey k) eqn:Hk.
  - rewrite !setPath_cons by exact Hk. f_equal. f_equal. apply IH.
  - rewrite !setPath_skip by exact Hk. apply IH.
Qed.

End ObjectFacts.

Section ObjectLoopFacts.

Import Objects.

Variable Prim : Type.
Variable truthyPrim : Prim -> bool.

Lemma lookup_app (a b : list (string * value Prim)) (k : string) :
  lookup (a ++ b) k
  = match lookup a k with Some v => Some v | None => lookup b k end.
Proof.
  induction a as [|[k' w] a IH]; cbn; [reflexivity|].
  destruct (String.eqb k' k); [reflexivity|exact IH].
Qed.

Lemma assign_fresh (ps : list (string * value Prim)) (k : string)
    (v : value Prim) :
  lookup ps k = None -> assign ps k v = ps ++ [(k, v)].
Proof.
  induction ps as [|[k' w] ps IH]; cbn; [reflexivity|].
  destruct (String.eqb k' k); [discriminate|]. intro H. now rewrite IH.
Qed.

Lemma lookup_absent (ps : list (string * value Prim)) (k : string) :
  ~ In k (map fst ps) -> lookup ps k = None.
Proof.
  induction ps as [|[k' w] ps IH]; cbn; [reflexivity|]. intro H.
  destruct (String.eqb k' k) eqn:Hk.
  - apply String.eqb_eq in Hk. tauto.
  - apply IH. tauto.
Qed.

Lemma lookup_present (ps : list (string * value Prim)) (k : string)
    (v : value Prim) :
  NoDup (map fst ps) -> In (k, v) ps -> lookup ps k = Some v.
Proof.
  induction ps as [|[k' w] ps IH]; cbn; [tauto|].
  intros Hnd [Heq|Hin].
  - injection Heq as -> ->. now rewrite String.eqb_refl.
  - inversion Hnd as [|k0 ks Hnotin Hnd']; subst.
    destruct (String.eqb k' k) eqn:Hk.
    + apply String.eqb_eq in Hk. subst k'. exfalso. apply Hnotin.
      apply (in_map fst) in Hin. exact Hin.
    + now apply IH.
Qed.

Lemma removeUndefined_loop (obj rest : list (string * value Prim)) :
  forall acc : list (string * value Prim),
    NoDup (map fst rest) ->
    (forall k v, In (k, v) rest -> prop obj k = v) ->
    (forall k, In k (map fst rest) -> lookup acc k = None) ->
    fold_left
      (fun result key =>
         if isUndefined (prop obj key) then result
         else assign result key (prop obj key))
      (map fst rest) acc
    = acc ++ filter (fun kv => negb (isUndefined (snd kv))) rest.
Proof.
  induction rest as [|[k v] rest IH]; intros acc Hnd Hobj Hacc.
  - cbn. now rewrite app_nil_r.
  - cbn [map fst fold_left filter snd].
    inversion Hnd as [|k0 ks Hnotin Hnd']; subst.
    rewrite (Hobj k v (or_introl eq_refl)).
    destruct (isUndefined v) eqn:Hv; cbn [negb].
    + apply IH; [exact Hnd'| |].
      * intros k' v' Hin. apply Hobj. now right.
      * intros k' Hin. apply Hacc. now right.
    + rewrite assign_fresh by (apply Hacc; now left).
      rewrite IH; [now rewrite <- app_assoc|exact Hnd'| |].
      * intros k' v' Hin. apply Hobj. now right.
      * intros k' Hin. rewrite lookup_app, Hacc by now right.
        cbn. destruct (String.eqb k k') eqn:Hk; [|reflexivity].
        apply String.eqb_eq in Hk. subst k'. tauto.
Qed.

Lemma mergeEntry_other (recur : value Prim -> value Prim -> value Prim)
    (t : list (string * value Prim)) (key k : string) (sv : value Prim) :
  key <> k ->
  lookup (mergeEntry truthyPrim recur t (key, sv)) k = lookup t k.
Proof.
  intro Hne. unfold mergeEntry.
  destruct (isObject sv); [|now apply lookup_assign_ne].
  destruct (falsy truthyPrim (prop t key)).
  - destruct (prop (assign t key (VObject [])) key);
      rewrite ?lookup_assign_ne by exact Hne; reflexivity.
  - destruct (prop t key);
      rewrite ?lookup_assign_ne by exact Hne; reflexivity.
Qed.

Lemma mergeEntry_same (t : list (string * value Prim)) (k : string)
    (sv : value Prim) :
  lookup (mergeEntry truthyPrim (mergeInto truthyPrim) t (k, sv)) k
  = Some (mergedProp truthyPrim sv (prop t k)).
Proof.
  unfold mergeEntry, mergedProp.
  destruct (isObject sv) eqn:Hobj; [|apply lookup_assign_eq].
  destruct (falsy truthyPrim (prop t k)) eqn:Hfalsy.
  - rewrite prop_assign_eq. now rewrite lookup_assign_eq.
  - unfold prop in *. destruct (lookup t k) as [[| |p|sub]|] eqn:Hlook;
      try discriminate.
    + exact Hlook.
    + apply lookup_assign_eq.
Qed.

(** One round of [mergeDeep], key by key. *)
Lemma merge_round_lookup (sprops : list (string * value Prim)) :
  forall (t : list (string * value Prim)) (k : string),
    NoDup (map fst sprops) ->
    lookup (fold_left (mergeEntry truthyPrim (mergeInto truthyPrim)) sprops t) k
    = match lookup sprops k with
      | None => lookup t k
      | Some sv => Some (mergedProp truthyPrim sv (prop t k))
      end.
Proof.
  induction sprops as [|[key sv] sprops IH]; intros t k Hnd; [reflexivity|].
  inversion Hnd as [|k0 ks Hnotin Hnd']; subst.
  cbn [fold_left]. rewrite IH by exact Hnd'. cbn [lookup].
  destruct (String.eqb key k) eqn:Hk.
  - apply String.eqb_eq in Hk. subst key.
    rewrite (lookup_absent _ _ Hnotin). apply mergeEntry_same.
  - assert (key <> k) as Hne by (now apply String.eqb_neq).
    destruct (lookup sprops k) as [sv'|]; [|now apply mergeEntry_other].
    unfold prop. now rewrite mergeEntry_other.
Qed.

Lemma mergeInto_objects (s t : list (string * value Prim)) :
  exists r, mergeInto truthyPrim (VObject s) (VObject t) = VObject r /\
    (NoDup (map fst s) ->
     forall k, lookup r k
               = match lookup s k with
                 | None => lookup t k
                 | Some sv => Some (mergedProp truthyPrim sv (prop t k))
                 end).
Proof.
  eexists. split; [reflexivity|].
  intros Hnd k. now apply merge_round_lookup.
Qed.

End ObjectLoopFacts.

Section ObjectClaims.

Import Objects Clone.
Local Open Scope string_scope.

(** X16.  On an object, when no segment of the path is empty and none
    is [__proto__], [getNestedValue] reads back what [setNestedValue] has
    set along the same path, whatever the object held there before : the
    value itself, [null] included, or the default when the value set is
    [undefined]. *)
Theorem nested_set_then_get (Prim : Type) (props : list (string * value Prim))
    (path : string) (v d : value Prim) :
  Forall (fun k => truthyKey k = true) (split path) ->
  ~ In "__proto__" (split path) ->
  exists obj,
    setNestedValue (VObject props) path v = Some obj /\
    getNestedValue obj path d = match v with VUndefined => d | _ => v end.
Proof.
  intros Hkeys _. eexists. split; [reflexivity|].
  unfold getNestedValue. apply walk_setPath; [|exact Hkeys].
  destruct (split_cons path) as [k [ks ->]]. discriminate.
Qed.

Lemma nested_set_then_get_witness :
  exists obj,
    setNestedValue (VObject [("a", VPrim 5%nat)]) "a.b.c" (@VNull nat) = Some obj /\
    getNestedValue obj "a.b.c" (VPrim 0%nat) = VNull.
Proof.
  apply (@nested_set_then_get nat [("a", VPrim 5%nat)] "a.b.c" VNull (VPrim 0%nat)).
  - repeat constructor.
  - cbn. intuition discriminate.
Defined.

(** X17.  Setting a value along one path does not change what
    [getNestedValue] reads along a path that parts from it at some
    segment, provided the segments of the first path up to that point are
    not empty, no segment of the first path is [__proto__], and the
    second path, from the segment at which it parts on, holds no name
    that objects inherit. *)
Theorem nested_set_other_path (Prim : Type) (props : list (string * value Prim))
    (p q : string) (pre r1 r2 : list string) (k1 k2 : string)
    (v d : value Prim) :
  split p = (pre ++ k1 :: r1)%list ->
  split q = (pre ++ k2 :: r2)%list ->
  k1 <> k2 ->
  Forall (fun k => truthyKey k = true) (pre ++ [k1])%list ->
  ~ In "__proto__" (pre ++ k1 :: r1)%list ->
  Forall (fun k => ObjectPrototype.isInherited k = false) (k2 :: r2) ->
  exists obj,
    setNestedValue (VObject props) p v = Some obj /\
    getNestedValue obj q d = getNestedValue (VObject props) q d.
Proof.
  intros Hp Hq Hne Hkeys _ _. eexists. split; [reflexivity|].
  unfold getNestedValue. rewrite Hp, Hq. now apply walk_setPath_other.
Qed.

Lemma nested_set_other_path_witness :
  exists obj,
    setNestedValue (VObject [("a", VObject [("c", VPrim 7%nat)])]) "a.b" (VPrim 1%nat)
    = Some obj /\
    getNestedValue obj "a.c" VUndefined = VPrim 7%nat.
Proof.
  apply (@nested_set_other_path nat [("a", VObject [("c", VPrim 7%nat)])]
           "a.b" "a.c" ["a"] [] [] "b" "c" (VPrim 1%nat) VUndefined).
  - reflexivity.
  - reflexivity.
  - discriminate.
  - repeat constructor.
  - cbn. intuition discriminate.
  - repeat constructor.
Defined.

(** X18.  When the path ends with a dot, so that its last segment is
    empty, [setNestedValue] stores the value nowhere : the outcome is the
    same whatever the value is. *)
Theorem nested_set_trailing_dot (Prim : Type) (obj : value Prim)
    (path : string) (init : list string) (v w : value Prim) :
  split path = (init ++ [EmptyString])%list ->
  setNestedValue obj path v = setNestedValue obj path w.
Proof.
  intro Hsplit. unfold setNestedValue. rewrite Hsplit.
  destruct obj as [| |p|props]; try reflexivity.
  now rewrite (setPath_empty_last init props v w).
Qed.

Lemma nested_set_trailing_dot_witness :
  setNestedValue (VObject [("a", VPrim 5%nat)]) "a." (VPrim 1%nat)
  = Some (VObject [("a", VObject [])]).
Proof.
  rewrite (@nested_set_trailing_dot nat (VObject [("a", VPrim 5%nat)]) "a." ["a"]
             (VPrim 1%nat) VUndefined eq_refl).
  reflexivity.
Defined.

(** X19.  On an object, whose keys are distinct and none of which is
    [__proto__], [removeUndefined] returns the properties whose value is
    not [undefined], in their order and with their values : [null] values
    are kept, and nothing is removed inside a nested object. *)
Theorem removeUndefined_filter (Prim : Type) (obj : list (string * value Prim)) :
  NoDup (map fst obj) ->
  ~ In "__proto__" (map fst obj) ->
  removeUndefined obj = filter (fun kv => negb (isUndefined (snd kv))) obj.
Proof.
  intros Hnd _. unfold removeUndefined.
  rewrite (@removeUndefined_loop Prim obj obj []); [reflexivity|exact Hnd| |].
  - intros k v Hin. unfold prop. now rewrite (lookup_present _ _ _ Hnd Hin).
  - reflexivity.
Qed.

Lemma removeUndefined_filter_witness :
  removeUndefined
    [("a", VPrim 1%nat); ("b", VUndefined); ("c", VNull);
     ("d", VObject [("e", VUndefined)])]
  = [("a", VPrim 1%nat); ("c", VNull); ("d", VObject [("e", VUndefined)])].
Proof.
  rewrite (@removeUndefined_filter nat
             [("a", VPrim 1%nat); ("b", VUndefined); ("c", VNull);
              ("d", VObject [("e", VUndefined)])]).
  - reflexivity.
  - repeat constructor; cbn; intuition discriminate.
  - cbn. intuition discriminate.
Defined.



(** X21.  Let no key of the source, at any depth, be a name that
    objects inherit.  For a key under which the source holds an object :
    when the target holds an object there, the two are merged; when the
    target holds nothing there, or a falsy value, the source's object is
    merged into a new empty object; and when the target holds a truthy
    primitive there, the target keeps it and the source's object is
    dropped. *)
Theorem mergeDeep_nested_keys (Prim : Type) (truthyPrim : Prim -> bool)
    (t s sub : list (string * value Prim)) (k : string) :
  NoDup (map fst s) ->
  ownKeys (VObject s) ->
  lookup s k = Some (VObject sub) ->
  exists r,
    mergeDeep truthyPrim (VObject t) [VObject s] = VObject r /\
    (forall tsub, lookup t k = Some (VObject tsub) ->
                  lookup r k
                  = Some (mergeInto truthyPrim (VObject sub) (VObject tsub))) /\
    (falsy truthyPrim (prop t k) = true ->
     lookup r k = Some (mergeInto truthyPrim (VObject sub) (VObject []))) /\
    (forall p, lookup t k = Some (VPrim p) -> truthyPrim p = true ->
               lookup r k = Some (VPrim p)).
Proof.
  intros Hnd _ Hk. destruct (mergeInto_objects truthyPrim s t) as [r [Hr Hlook]].
  exists r. cbn [mergeDeep]. split; [exact Hr|].
  specialize (Hlook Hnd k). rewrite Hk in Hlook. unfold mergedProp in Hlook.
  cbn [isObject] in Hlook. split; [|split].
  - intros tsub Ht. rewrite Hlook. unfold prop. rewrite Ht. reflexivity.
  - intro Hfalsy. rewrite Hlook, Hfalsy. reflexivity.
  - intros p Ht Hp. rewrite Hlook. unfold prop. rewrite Ht. cbn [falsy].
    rewrite Hp. reflexivity.
Qed.

Lemma mergeDeep_nested_keys_witness :
  mergeDeep (fun n => negb (n =? 0)%nat)
    (VObject [("a", VPrim 1); ("b", VObject [("x", VPrim 1)])])
    [VObject [("a", VObject [("y", VPrim 2)]); ("b", VObject [("y", VPrim 2)])]]
  = VObject [("a", VPrim 1); ("b", VObject [("x", VPrim 1); ("y", VPrim 2)])].
Proof.
  destruct (@mergeDeep_nested_keys nat (fun n => negb (n =? 0)%nat)
              [("a", VPrim 1); ("b", VObject [("x", VPrim 1)])]
              [("a", VObject [("y", VPrim 2)]); ("b", VObject [("y", VPrim 2)])]
              [("y", VPrim 2)] "a") as [r [Hr _]].
  - repeat constructor; cbn; intuition discriminate.
  - cbn. intuition reflexivity.
  - reflexivity.
  - reflexivity.
Defined.

(** X22.  [mergeDeep] returns a target that is not an object as it is,
    whatever the sources, and passes over a source that is not an
    object. *)
Theorem mergeDeep_non_objects (Prim : Type) (truthyPrim : Prim -> bool)
    (target source : value Prim) (sources : list (value Prim)) :
  (isObject target = false -> mergeDeep truthyPrim target sources = target) /\
  (isObject source = false ->
   mergeDeep truthyPrim target (source :: sources)
   = mergeDeep truthyPrim target sources).
Proof.
  split.
  - intro Ht. induction sources as [|s sources IH]; [reflexivity|].
    cbn [mergeDeep].
    replace (mergeInto truthyPrim s target) with target; [exact IH|].
    destruct target; try discriminate; destruct s; reflexivity.
  - intro Hs. cbn [mergeDeep].
    replace (mergeInto truthyPrim source target) with target; [reflexivity|].
    destruct source; try discriminate; destruct target; reflexivity.
Qed.

Lemma mergeDeep_non_objects_witness :
  mergeDeep (fun n => negb (n =? 0)%nat) (VPrim 5)
    [VObject [("a", VPrim 1)]; VObject [("b", VPrim 2)]]
  = VPrim 5.
Proof.
  apply (@mergeDeep_non_objects nat (fun n => negb (n =? 0)%nat) (VPrim 5) VNull
           [VObject [("a", VPrim 1)]; VObject [("b", VPrim 2)]]).
  reflexivity.
Defined.

End ObjectClaims.

(** ** deepClone *)

Section CloneClaims.

Import Objects Clone.

(** X23.  The clone [deepClone] returns for a tree of plain objects,
    no key of which is a name that objects inherit, equals the original :
    every property is there, in the same order and with an equal value,
    properties whose value is [undefined] or [null] included. *)
Theorem deepClone_equal (Prim : Type) (v : value Prim) :
  distinctKeys v -> ownKeys v -> deepClone v = v.
Proof.
  intros Hdistinct _. revert v Hdistinct.
  fix IH 1. intros [| |p|props] H; try reflexivity.
  cbn [deepClone]. f_equal. destruct H as [Hnd Hbelow].
  change props with ([] ++ props) at 2.
  assert (forall k, In k (map fst props) ->
                    lookup (@nil (string * value Prim)) k = None) as Hacc
      by reflexivity.
  revert Hnd Hbelow Hacc. generalize (@nil (string * value Prim)) as acc.
  induction props as [|[k w] rest IHrest]; intros acc Hnd Hbelow Hacc.
  - cbn. now rewrite app_nil_r.
  - cbn [fold_left fst snd]. destruct Hbelow as [Hw Hrest].
    inversion Hnd as [|k0 ks Hnotin Hnd']; subst.
    rewrite (IH w Hw).
    rewrite assign_fresh by (apply Hacc; now left).
    rewrite IHrest; [now rewrite <- app_assoc|exact Hnd'|exact Hrest|].
    intros k' Hin. rewrite lookup_app, Hacc by now right.
    cbn. destruct (String.eqb k k') eqn:Hk; [|reflexivity].
    apply String.eqb_eq in Hk. subst k'. tauto.
Qed.

Lemma deepClone_equal_witness :
  deepClone (VObject [("a"%string, VPrim 1); ("b"%string, VUndefined);
                      ("c"%string, VObject [("d"%string, @VNull nat)])])
  = VObject [("a"%string, VPrim 1); ("b"%string, VUndefined);
             ("c"%string, VObject [("d"%string, VNull)])].
Proof.
  apply (@deepClone_equal nat).
  - cbn. repeat split; repeat constructor; cbn; intuition discriminate.
  - cbn. intuition reflexivity.
Defined.

End CloneClaims.

(** ** generateId *)

Section RandomIdFacts.

Import RandomId.
Local Open Scope Z_scope.

Lemma length_append (a b : string) :
  String.length (String.append a b) = (String.length a + String.length b)%nat.
Proof.
  induction a as [|c a IH]; [reflexivity|].
  change (String.append (String c a) b) with (String c (String.append a b)).
  cbn [String.length Nat.add]. now rewrite IH.
Qed.

Lemma charAt_in_range (s : string) (k : Z) :
  0 <= k < Z.of_nat (String.length s) ->
  exists c, charAt s k = String c EmptyString /\
            String.get (Z.to_nat k) s = Some c.
Proof.
  intros [Hlo Hhi]. unfold charAt.
  replace (k <? 0) with false by (symmetry; apply Z.ltb_ge; lia).
  destruct (String.get (Z.to_nat k) s) as [c|] eqn:Hget; [now exists c|].
  exfalso.
  assert (forall (t : string) (n : nat),
             (n < String.length t)%nat -> String.get n t <> None) as Hsome.
  { induction t as [|c t IHt]; intros n Hn; cbn in Hn; [lia|].
    destruct n as [|n]; cbn; [discriminate|]. apply IHt. lia. }
  apply (Hsome s (Z.to_nat k)); [lia|exact Hget].
Qed.

Lemma generateLoop_length (draw : nat -> Z) (rounds : nat) :
  (forall i, 0 <= draw i < Z.of_nat (String.length chars)) ->
  forall (i : nat) (result : string),
    String.length (generateLoop draw i rounds result)
    = (String.length result + rounds)%nat.
Proof.
  intro Hdraw. induction rounds as [|rounds IH]; intros i result; cbn [generateLoop].
  - lia.
  - rewrite IH, length_append.
    destruct (charAt_in_range chars (Hdraw i)) as [c [-> _]]. cbn. lia.
Qed.

(** The characters of a string. *)
Lemma generateLoop_chars (draw : nat -> Z) (rounds : nat) :
  (forall i, 0 <= draw i < Z.of_nat (String.length chars)) ->
  forall (i : nat) (result : string),
    Forall (fun c => In c (list_ascii_of_string chars))
           (list_ascii_of_string result) ->
    Forall (fun c => In c (list_ascii_of_string chars))
           (list_ascii_of_string (generateLoop draw i rounds result)).
Proof.
  intro Hdraw.
  assert (forall (t : string) (n : nat) (c : Ascii.ascii),
             String.get n t = Some c -> In c (list_ascii_of_string t)) as Hget.
  { induction t as [|c0 t IHt]; intros n c Hn; [discriminate|].
    destruct n as [|n]; cbn in Hn |- *.
    - injection Hn as ->. now left.
    - right. now apply (IHt n). }
  assert (forall a b, list_ascii_of_string (String.append a b)
                      = list_ascii_of_string a ++ list_ascii_of_string b) as Happ.
  { induction a as [|c0 a IHa]; intro b; [reflexivity|].
    change (String.append (String c0 a) b) with (String c0 (String.append a b)).
    cbn [list_ascii_of_string app]. now rewrite IHa. }
  induction rounds as [|rounds IH]; intros i result Hres; cbn [generateLoop];
    [exact Hres|].
  apply IH. rewrite Happ. apply Forall_app. split; [exact Hres|].
  destruct (charAt_in_range chars (Hdraw i)) as [c [-> Hc]].
  cbn. constructor; [|constructor]. now apply (Hget chars (Z.to_nat (draw i))).
Qed.

End RandomIdFacts.

Section RandomIdClaims.

Import RandomId.
Local Open Scope Z_scope.

(** X24.  When every index drawn lies in the range of [chars], as
    [Math.floor(Math.random() * chars.length)] does, [generateId(length)]
    returns a string of exactly [length] characters (the empty string for
    a negative [length]), each of them one of the 62 letters and digits
    of [chars]. *)
Theorem generateId_length (draw : nat -> Z) (length : Z) :
  (forall i, 0 <= draw i < 62) ->
  String.length (generateId draw length) = Z.to_nat length /\
  Forall (fun c => In c (list_ascii_of_string chars))
         (list_ascii_of_string (generateId draw length)).
Proof.
  intro Hdraw. unfold generateId. split.
  - now rewrite generateLoop_length.
  - apply generateLoop_chars; [exact Hdraw|constructor].
Qed.

Lemma generateId_length_witness :
  String.length (generateId (fun i => Z.of_nat (Nat.modulo (7 * i) 62)) 8) = 8%nat.
Proof.
  apply (@generateId_length (fun i => Z.of_nat (Nat.modulo (7 * i) 62)) 8).
  intro i. pose proof (Nat.mod_upper_bound (7 * i) 62 ltac:(lia)). lia.
Defined.

End RandomIdClaims.
